(** * Shallow embedding of next-intl-extractor: the message trie of
    [crates/cli/src/messages.rs], the watch-mode event handlers of
    [crates/cli/src/watch.rs], the translation visitor of
    [crates/resolver/src/visitor.rs] and [extract_translations]. *)

From Stdlib Require Import String Ascii List Bool Arith Lia.
Set Warnings "-register-all".
Import ListNotations.
Open Scope string_scope.
Open Scope list_scope.

(** ** Association lists standing for Rust's [HashMap<String, _>].

    Keys are unique.  [ainsert] follows [HashMap::insert]: an existing key
    keeps its slot and gets the new value, a new key is added (here at the
    end; the iteration order of a [HashMap] is unspecified). *)
Module AList.

Section AList.
Context {V : Type}.

Fixpoint alookup (k : string) (m : list (string * V)) : option V :=
  match m with
  | [] => None
  | (k', v) :: rest => if String.eqb k k' then Some v else alookup k rest
  end.

Fixpoint ainsert (k : string) (v : V) (m : list (string * V)) : list (string * V) :=
  match m with
  | [] => [(k, v)]
  | (k', v') :: rest =>
      if String.eqb k k' then (k', v) :: rest else (k', v') :: ainsert k v rest
  end.

Lemma alookup_ainsert_eq k v m : alookup k (ainsert k v m) = Some v.
Proof.
  induction m as [|[k' v'] rest IH]; simpl.
  - rewrite String.eqb_refl. reflexivity.
  - destruct (String.eqb k k') eqn:E; simpl.
    + rewrite E. reflexivity.
    + rewrite E. exact IH.
Qed.

Lemma alookup_ainsert_neq k k2 v m :
  k2 <> k -> alookup k2 (ainsert k v m) = alookup k2 m.
Proof.
  intros Hne. induction m as [|[k' v'] rest IH]; simpl.
  - destruct (String.eqb k2 k) eqn:E; [apply String.eqb_eq in E; congruence|reflexivity].
  - destruct (String.eqb k k') eqn:E; simpl.
    + apply String.eqb_eq in E; subst k'.
      destruct (String.eqb k2 k) eqn:E2; [apply String.eqb_eq in E2; congruence|reflexivity].
    + rewrite IH. reflexivity.
Qed.

Lemma ainsert_same k v m : alookup k m = Some v -> ainsert k v m = m.
Proof.
  induction m as [|[k' v'] rest IH]; simpl; [discriminate|].
  destruct (String.eqb k k') eqn:E.
  - intros H; inversion H; subst. reflexivity.
  - intros H. rewrite IH by exact H. reflexivity.
Qed.

Lemma ainsert_not_nil k v m : ainsert k v m <> [].
Proof. destruct m as [|[k' v'] rest]; simpl; [discriminate|]. destruct (String.eqb k k'); discriminate. Qed.

End AList.
End AList.
Import AList.

(** ** [str.split('.')] and [parts.join(".")] *)

Fixpoint split_dot (s : string) : list string :=
  match s with
  | EmptyString => [EmptyString]
  | String c rest =>
      match split_dot rest with
      | [] => []
      | w :: ws => if Ascii.eqb c "." then EmptyString :: w :: ws else String c w :: ws
      end
  end.

Definition join_dot (parts : list string) : string := String.concat "." parts.

(** ** serde_json values *)

Inductive Value : Type :=
| VNull
| VBool (b : bool)
| VNumber (n : nat)
| VString (s : string)
| VArray (items : list Value)
| VObject (fields : list (string * Value)).

(** [Value::as_object] *)
Definition as_object (v : Value) : option (list (string * Value)) :=
  match v with VObject o => Some o | _ => None end.

(** ** The message trie of [messages.rs] *)

Record MessageInfo := mkMessageInfo { value : string; file_path : string }.

(** [Either<MessageInfo, Box<MessageMap>>]: [Left] is a leaf, [Right] a branch. *)
Inductive Node : Type :=
| Left (info : MessageInfo)
| Right (messages : list (string * Node)).

Definition MessageMap := list (string * Node).

Record NamespaceConflict := mkConflict
  { c_namespace : string; c_key : string; c_files : list string }.

Record MessageHandler := mkHandler
  { source_messages : list (string * Value);
    extracted_messages : MessageMap;
    conflicts : list NamespaceConflict }.

(** The walk of [add_extracted_message] down the namespace segments
    [parts] (lines 53-69) followed by the insertion of the key (lines 71-87).
    The result is the updated map and the conflict pushed, if any.  A leaf on
    the way aborts the whole insertion ([return]); a missing segment is
    created as an empty branch ([or_insert_with]) and descended into. *)
Fixpoint add_parts (namespace : string) (parts : list string) (key fp : string)
    (current : MessageMap) : MessageMap * option NamespaceConflict :=
  match parts with
  | [] =>
      let conflict :=
        match alookup key current with
        | Some (Left existing_info) =>
            Some (mkConflict namespace key [file_path existing_info; fp])
        | _ => None
        end in
      (ainsert key (Left (mkMessageInfo "" fp)) current, conflict)
  | part :: rest =>
      match alookup part current with
      | Some (Left info) => (current, Some (mkConflict namespace part [file_path info; fp]))
      | Some (Right map) =>
          let (map', c) := add_parts namespace rest key fp map in
          (ainsert part (Right map') current, c)
      | None =>
          let (map', c) := add_parts namespace rest key fp [] in
          (ainsert part (Right map') current, c)
      end
  end.

Definition option_to_list {A} (o : option A) : list A :=
  match o with Some a => [a] | None => [] end.

(** [MessageHandler::add_extracted_message] *)
Definition add_extracted_message (h : MessageHandler) (namespace key fp : string)
    : MessageHandler :=
  let (m, c) := add_parts namespace (split_dot namespace) key fp (extracted_messages h) in
  mkHandler (source_messages h) m (conflicts h ++ option_to_list c).

(** [MessageHandler::add_extracted_messages]: the [HashMap<String, HashSet<String>>]
    is given as the list of its entries in iteration order. *)
Definition add_extracted_messages (h : MessageHandler)
    (messages : list (string * list string)) (fp : string) : MessageHandler :=
  fold_left (fun h nk =>
      fold_left (fun h key => add_extracted_message h (fst nk) key fp) (snd nk) h)
    messages h.

(** [remove_messages] (lines 179-190): [retain] keeps leaves of other files
    and branches that are still non-empty after the recursive removal.
    [remove_node] says what the [retain] closure does with one value:
    [None] when it is dropped, [Some] of the value it leaves in place. *)
Fixpoint remove_node (fp : string) (n : Node) {struct n} : option Node :=
  match n with
  | Left info => if String.eqb (file_path info) fp then None else Some (Left info)
  | Right map =>
      let map' :=
        (fix retain (m : MessageMap) : MessageMap :=
           match m with
           | [] => []
           | (k, v) :: rest =>
               match remove_node fp v with
               | Some v' => (k, v') :: retain rest
               | None => retain rest
               end
           end) map in
      match map' with
      | [] => None
      | _ => Some (Right map')
      end
  end.

Fixpoint remove_messages (fp : string) (m : MessageMap) : MessageMap :=
  match m with
  | [] => []
  | (k, v) :: rest =>
      match remove_node fp v with
      | Some v' => (k, v') :: remove_messages fp rest
      | None => remove_messages fp rest
      end
  end.

(** [MessageHandler::remove_messages_for_file] *)
Definition remove_messages_for_file (h : MessageHandler) (fp : string) : MessageHandler :=
  mkHandler (source_messages h) (remove_messages fp (extracted_messages h))
    (filter (fun c => negb (existsb (String.eqb fp) (c_files c))) (conflicts h)).

(** [MessageHandler::lookup_in_source] for the segments of [full_key]. *)
Fixpoint lookup_parts (parts : list string) (key : string)
    (current : list (string * Value)) : option Value :=
  match parts with
  | [] => None
  | [_] => alookup key current
  | part :: rest =>
      match alookup part current with
      | Some v => match as_object v with
                  | Some obj => lookup_parts rest key obj
                  | None => None
                  end
      | None => None
      end
  end.

Definition lookup_in_source (src : list (string * Value)) (full_key key : string)
    : option Value :=
  lookup_parts (split_dot full_key) key src.

(** [MessageHandler::merge_recursive] (lines 114-143), one entry at a
    time: [merge_entry] handles the entry [(key, value)] of a map merged with
    prefix [prefix].  Note that a branch is merged with prefix [Some(key)],
    the branch's own segment, not the accumulated dotted path. *)
Fixpoint merge_entry (src : list (string * Value)) (prefix : option string)
    (key : string) (n : Node) (output : list (string * Value)) {struct n}
    : list (string * Value) :=
  match n with
  | Left _ =>
      let full_key := match prefix with Some p => (p ++ "." ++ key)%string | None => key end in
      match lookup_in_source src full_key key with
      | Some source_value => ainsert key source_value output
      | None => ainsert key (VString full_key) output
      end
  | Right nested =>
      let nested_map :=
        (fix go (m : MessageMap) (out : list (string * Value)) :=
           match m with
           | [] => out
           | (k, v) :: rest => go rest (merge_entry src (Some key) k v out)
           end) nested [] in
      ainsert key (VObject nested_map) output
  end.

Fixpoint merge_recursive (src : list (string * Value)) (message_map : MessageMap)
    (prefix : option string) (output : list (string * Value)) : list (string * Value) :=
  match message_map with
  | [] => output
  | (key, v) :: rest => merge_recursive src rest prefix (merge_entry src prefix key v output)
  end.

(** [MessageHandler::merge_messages] *)
Definition merge_messages (h : MessageHandler) : list (string * Value) :=
  merge_recursive (source_messages h) (extracted_messages h) None [].

Definition new_handler (src : list (string * Value)) : MessageHandler :=
  mkHandler src [] [].

(** ** The syntax tree seen by [TranslationFunctionVisitor] (oxc's AST,
    restricted to the node kinds the visitor distinguishes).  Arguments are
    expressions (spread arguments are not modelled).  An object property is
    its key and its value; a spread property is given an [OtherKey]. *)

Inductive BindingPatternKind := BindingIdentifier (name : string) | OtherPattern.

Inductive PropertyKey := StaticIdentifier (name : string) | OtherKey.

Inductive Expression : Type :=
| Identifier (name : string)
| StringLiteral (value : string)
| CallExpression (callee : Expression) (arguments : list Expression)
| StaticMemberExpression (object : Expression) (property : string)
| AwaitExpression (argument : Expression)
| ObjectExpression (properties : list (PropertyKey * Expression))
| FunctionExpression (id : option string) (body : list Statement)
| ArrowFunctionExpression (body : list Statement)
| OtherExpression (children : list Expression)
with Statement : Type :=
| VariableDeclaration (declarations : list (BindingPatternKind * option Expression))
| ExpressionStatement (expression : Expression)
| FunctionDeclaration (id : option string) (body : list Statement)
| ReturnStatement (argument : option Expression)
| BlockStatement (body : list Statement).

(** ** Visitor state *)

Record TranslationFunction := mkTranslationFunction
  { namespace : string; usages : list string }.

Record TranslationFunctionVisitor := mkVisitor
  { translation_functions : list (string * TranslationFunction);
    current_scope : list string;
    (** the [warn!] lines logged, one per unresolved namespace (callee name) *)
    warnings : list string }.

Definition new_visitor : TranslationFunctionVisitor := mkVisitor [] [] [].

(** [HashSet::insert] on a duplicate-free list *)
Definition set_insert (x : string) (s : list string) : list string :=
  if existsb (String.eqb x) s then s else s ++ [x].

Definition enter_scope (v : TranslationFunctionVisitor) (name : string) :=
  mkVisitor (translation_functions v) (current_scope v ++ [name]) (warnings v).

(** [Vec::pop]: removes the last element, does nothing on an empty vector. *)
Definition exit_scope (v : TranslationFunctionVisitor) :=
  mkVisitor (translation_functions v) (removelast (current_scope v)) (warnings v).

Definition current_scope_name (v : TranslationFunctionVisitor) : string :=
  join_dot (current_scope v).

(** The key [format!("{}:{}", scope, name)] of a binding. *)
Definition qualified_name (scope name : string) : string := (scope ++ ":" ++ name)%string.

Fixpoint find_map {A B} (f : A -> option B) (l : list A) : option B :=
  match l with
  | [] => None
  | x :: rest => match f x with Some y => Some y | None => find_map f rest end
  end.

(** The closure given to [find_map] in [extract_namespace_from_translations_call]. *)
Definition namespace_property (prop : PropertyKey * Expression) : option string :=
  match prop with
  | (StaticIdentifier key_ident, StringLiteral value_lit) =>
      if String.eqb key_ident "namespace" then Some value_lit else None
  | _ => None
  end.

(** [extract_namespace_from_translations_call] (lines 177-212) *)
Definition extract_namespace_from_translations_call (arguments : list Expression)
    (is_get_translations : bool) : option string :=
  if is_get_translations then
    match arguments with
    | ObjectExpression props :: _ => find_map namespace_property props
    | _ => None
    end
  else
    match arguments with
    | StringLiteral str_lit :: _ => Some str_lit
    | _ => None
    end.

(** One declarator of [visit_variable_declaration] (lines 86-138); [continue]
    leaves the state as it is. *)
Definition visit_declarator (v : TranslationFunctionVisitor)
    (decl : BindingPatternKind * option Expression) : TranslationFunctionVisitor :=
  let (id, init) := decl in
  let call :=
    match init with
    | Some (CallExpression callee args) => Some (callee, args, false)
    | Some (AwaitExpression (CallExpression callee args)) => Some (callee, args, true)
    | _ => None
    end in
  match call with
  | None => v
  | Some (callee, args, is_get_translations) =>
      match callee with
      | Identifier callee_name =>
          if negb (String.eqb callee_name "useTranslations")
             && negb (String.eqb callee_name "getTranslations") then v
          else
            match extract_namespace_from_translations_call args is_get_translations with
            | None =>
                mkVisitor (translation_functions v) (current_scope v)
                  (warnings v ++ [callee_name])
            | Some ns =>
                match id with
                | BindingIdentifier decl_id =>
                    let key := qualified_name (current_scope_name v) decl_id in
                    mkVisitor
                      (ainsert key (mkTranslationFunction ns []) (translation_functions v))
                      (current_scope v) (warnings v)
                | OtherPattern => v
                end
            end
      | _ => v
      end
  end.

Definition visit_variable_declaration (v : TranslationFunctionVisitor)
    (declarations : list (BindingPatternKind * option Expression)) :=
  fold_left visit_declarator declarations v.

(** Records the usage [callee(first_arg)] of a binding, lines 148-156 and 162-170. *)
Definition record_usage (v : TranslationFunctionVisitor) (callee_name : string)
    (arguments : list Expression) : TranslationFunctionVisitor :=
  let key := qualified_name (current_scope_name v) callee_name in
  match alookup key (translation_functions v) with
  | Some info =>
      match arguments with
      | StringLiteral str_lit :: _ =>
          mkVisitor
            (ainsert key (mkTranslationFunction (namespace info)
                            (set_insert str_lit (usages info)))
               (translation_functions v))
            (current_scope v) (warnings v)
      | _ => v
      end
  | None => v
  end.

(** [visit_call_expression] (lines 143-174); it does not walk into the
    callee or the arguments. *)
Definition visit_call_expression (v : TranslationFunctionVisitor) (callee : Expression)
    (arguments : list Expression) : TranslationFunctionVisitor :=
  match callee with
  | StaticMemberExpression (Identifier name) _ => record_usage v name arguments
  | Identifier name => record_usage v name arguments
  | _ => v
  end.

(** The traversal: oxc's default [walk] for the node kinds above, with the
    overridden [visit_function] (lines 76-83), [visit_variable_declaration]
    and [visit_call_expression]. *)
Fixpoint visit_expression (v : TranslationFunctionVisitor) (e : Expression) {struct e}
    : TranslationFunctionVisitor :=
  match e with
  | Identifier _ | StringLiteral _ => v
  | CallExpression callee args => visit_call_expression v callee args
  | StaticMemberExpression obj _ => visit_expression v obj
  | AwaitExpression arg => visit_expression v arg
  | ObjectExpression props =>
      (fix go v ps := match ps with
                      | [] => v
                      | (_, e') :: rest => go (visit_expression v e') rest
                      end) v props
  | FunctionExpression id body =>
      let v1 := match id with Some name => enter_scope v name | None => v end in
      let v2 := (fix go v ss := match ss with
                                | [] => v
                                | s :: rest => go (visit_statement v s) rest
                                end) v1 body in
      exit_scope v2
  | ArrowFunctionExpression body =>
      (fix go v ss := match ss with
                      | [] => v
                      | s :: rest => go (visit_statement v s) rest
                      end) v body
  | OtherExpression cs =>
      (fix go v es := match es with
                      | [] => v
                      | e' :: rest => go (visit_expression v e') rest
                      end) v cs
  end
with visit_statement (v : TranslationFunctionVisitor) (s : Statement) {struct s}
    : TranslationFunctionVisitor :=
  match s with
  | VariableDeclaration decls => visit_variable_declaration v decls
  | ExpressionStatement e => visit_expression v e
  | FunctionDeclaration id body =>
      let v1 := match id with Some name => enter_scope v name | None => v end in
      let v2 := (fix go v ss := match ss with
                                | [] => v
                                | s' :: rest => go (visit_statement v s') rest
                                end) v1 body in
      exit_scope v2
  | ReturnStatement None => v
  | ReturnStatement (Some e) => visit_expression v e
  | BlockStatement body =>
      (fix go v ss := match ss with
                      | [] => v
                      | s' :: rest => go (visit_statement v s') rest
                      end) v body
  end.

Definition visit_program (v : TranslationFunctionVisitor) (program : list Statement) :=
  fold_left visit_statement program v.

(** [merge_by_namespace] (lines 53-65), over the bindings in iteration order. *)
Definition merge_by_namespace (v : TranslationFunctionVisitor)
    : list (string * list string) :=
  fold_left (fun result (tf : TranslationFunction) =>
      match alookup (namespace tf) result with
      | Some set => ainsert (namespace tf) (fold_left (fun s x => set_insert x s) (usages tf) set) result
      | None => ainsert (namespace tf) (usages tf) result
      end)
    (map snd (translation_functions v)) [].

(** ** [extract_translations] and the watch-mode handlers *)

Inductive Result (A : Type) := Ok (a : A) | Err (msg : string).
Arguments Ok {A} a.
Arguments Err {A} msg.

(** What [extract_translations] gets from the file system and the parser:
    a file that cannot be read ([read_to_string] fails), or the program the
    parser returned together with the parse errors it reported. *)
Inductive SourceFile :=
| Unreadable
| Parsed (program : list Statement) (errors : list string).

(** [extract_translations] (extractor/src/lib.rs, lines 10-27): the errors
    are only printed; the returned program is visited whatever they are. *)
Definition extract_translations (f : SourceFile) : Result (list (string * list string)) :=
  match f with
  | Unreadable => Err "failed to read source file"
  | Parsed program _errors => Ok (merge_by_namespace (visit_program new_visitor program))
  end.

(** [process_file_change] (watch.rs, lines 10-23).  The [Ok] result carries
    the catalog written by [write_merged_messages] (the write is assumed to
    succeed). *)
Definition process_file_change (h : MessageHandler) (path : string) (f : SourceFile)
    : MessageHandler * Result (list (string * Value)) :=
  match extract_translations f with
  | Err e => (h, Err e)
  | Ok translations =>
      let h' := add_extracted_messages h translations path in
      (h', Ok (merge_messages h'))
  end.

(** [process_file_removal] (watch.rs, lines 25-36) *)
Definition process_file_removal (h : MessageHandler) (path : string)
    : MessageHandler * Result (list (string * Value)) :=
  let h' := remove_messages_for_file h path in
  (h', Ok (merge_messages h')).

(** The event loop of [watch] (lines 78-107) on the events that pass the
    glob filter: an error is logged and the loop goes on.  The state is the
    handler, the catalog last written and the error log. *)
Inductive Event := Changed (path : string) (f : SourceFile) | Removed (path : string).

Record WatchState := mkWatchState
  { handler : MessageHandler; written : option (list (string * Value)); errors_logged : list string }.

Definition handle_event (s : WatchState) (ev : Event) : WatchState :=
  let (h', r) :=
    match ev with
    | Changed path f => process_file_change (handler s) path f
    | Removed path => process_file_removal (handler s) path
    end in
  match r with
  | Ok out => mkWatchState h' (Some out) (errors_logged s)
  | Err e => mkWatchState h' (written s) (errors_logged s ++ [e])
  end.

Definition watch_loop (s : WatchState) (events : list Event) : WatchState :=
  fold_left handle_event events s.

(** ** Sample inputs *)

(** [function Test() { const t = useTranslations(ns); t(k); }] *)
Definition component (name ns k : string) : list Statement :=
  [FunctionDeclaration (Some name)
     [VariableDeclaration
        [(BindingIdentifier "t", Some (CallExpression (Identifier "useTranslations") [StringLiteral ns]))];
      ExpressionStatement (CallExpression (Identifier "t") [StringLiteral k])]].

Example extract_component :
  extract_translations (Parsed (component "Test" "TestNS" "hello") [])
  = Ok [("TestNS", ["hello"])].
Proof. reflexivity. Qed.

Example merge_test_new_keys :
  let src := [("namespace1", VObject [("key1", VString "value1"); ("key2", VString "value2")])] in
  let h := add_extracted_message (add_extracted_message (new_handler src) "namespace1" "key1" "f")
             "namespace1" "new_key" "f" in
  merge_messages h = [("namespace1", VObject [("key1", VString "value1");
                                              ("new_key", VString "namespace1.new_key")])].
Proof. reflexivity. Qed.

(** The value at a dotted path of a JSON object. *)
Fixpoint json_get_path (path : list string) (obj : list (string * Value)) : option Value :=
  match path with
  | [] => None
  | [k] => alookup k obj
  | k :: rest =>
      match alookup k obj with
      | Some (VObject o) => json_get_path rest o
      | _ => None
      end
  end.

(** The [(namespace, key)] pairs of an extraction result, in insertion order. *)
Definition flatten (messages : list (string * list string)) : list (string * string) :=
  concat (map (fun nk => map (fun k => (fst nk, k)) (snd nk)) messages).

(** ** Claims *)

(** C1 (code bug): for the namespace ["parent.child"] and the key ["k"],
    inserted once, with the catalog [{"parent":{"child":{"k":"v"}}}], the
    merged output holds at [parent.child.k] the string ["child.k"]: neither
    the catalog value ["v"] nor the placeholder ["parent.child.k"], because a
    nested branch is merged with its own segment as the whole prefix. *)
Theorem C1_nested_namespace_lookup :
  let src := [("parent", VObject [("child", VObject [("k", VString "v")])])] in
  let h := add_extracted_message (new_handler src) "parent.child" "k" "file.tsx" in
  json_get_path (split_dot "parent.child.k") src = Some (VString "v")
  /\ json_get_path ["parent"; "child"; "k"] (merge_messages h) = Some (VString "child.k")
  /\ json_get_path ["parent"; "child"; "k"] (merge_messages (add_extracted_message
        (new_handler []) "parent.child" "k" "file.tsx")) = Some (VString "child.k").
Proof. vm_compute. repeat split. Qed.

(** C2 (counterexample): a third file inserting the same [(ns1, key1)] adds
    a second conflict record instead of growing the files of the first. *)
Lemma C2_third_file_new_record :
  let h := add_extracted_message (add_extracted_message (add_extracted_message
             (new_handler []) "ns1" "key1" "A") "ns1" "key1" "B") "ns1" "key1" "C" in
  conflicts h = [mkConflict "ns1" "key1" ["A"; "B"]; mkConflict "ns1" "key1" ["B"; "C"]].
Proof. reflexivity. Qed.

(** C2 (amended): from a fresh handler, inserting [(ns1, key1)] from file A
    and then from file B records exactly one conflict, naming A and B;
    removing A's messages leaves no conflict.  Every further insertion of
    the same pair from a file C appends one more record, naming the file of
    the current leaf and C. *)
Theorem C2_conflict_record :
  forall src A B C,
  let h := add_extracted_message (add_extracted_message
             (new_handler src) "ns1" "key1" A) "ns1" "key1" B in
  conflicts h = [mkConflict "ns1" "key1" [A; B]]
  /\ conflicts (remove_messages_for_file h A) = []
  /\ conflicts (add_extracted_message h "ns1" "key1" C)
     = [mkConflict "ns1" "key1" [A; B]; mkConflict "ns1" "key1" [B; C]].
Proof.
  intros src A B C h. subst h.
  unfold remove_messages_for_file, add_extracted_message; simpl.
  rewrite String.eqb_refl. simpl. repeat split.
Qed.

(** C3 (code bug): a leaf inserted where a branch already is replaces the
    branch silently: after [("a.b", "c", f1)] and then [("a", "b", f2)] no
    conflict is recorded and the entry [a.b.c] of f1 is gone. *)
Theorem C3_leaf_over_branch :
  let h1 := add_extracted_message (new_handler []) "a.b" "c" "f1.tsx" in
  let h2 := add_extracted_message h1 "a" "b" "f2.tsx" in
  extracted_messages h1 = [("a", Right [("b", Right [("c", Left (mkMessageInfo "" "f1.tsx"))])])]
  /\ extracted_messages h2 = [("a", Right [("b", Left (mkMessageInfo "" "f2.tsx"))])]
  /\ conflicts h2 = [].
Proof. vm_compute. repeat split. Qed.

(** ** Re-inserting the same messages *)

Definition leaf_of (fp : string) : Node := Left (mkMessageInfo "" fp).

(** The path [parts] then [key] is settled for file [fp] in [m] when the
    walk of [add_parts] stops at a leaf on the way, or ends at the leaf that
    [add_parts] would write for [fp]. *)
Fixpoint settled (fp : string) (parts : list string) (key : string) (m : MessageMap) : Prop :=
  match parts with
  | [] => alookup key m = Some (leaf_of fp)
  | part :: rest =>
      match alookup part m with
      | Some (Left _) => True
      | Some (Right sub) => settled fp rest key sub
      | None => False
      end
  end.

Lemma add_parts_settled_noop ns fp parts key m :
  settled fp parts key m ->
  exists c, add_parts ns parts key fp m = (m, Some c) /\ In fp (c_files c).
Proof.
  revert m. induction parts as [|p ps IH]; intros m H; simpl in *.
  - rewrite H. rewrite ainsert_same by exact H.
    eexists; split; [reflexivity|simpl; auto].
  - destruct (alookup p m) as [[info|sub]|] eqn:E; try contradiction.
    + eexists; split; [reflexivity|simpl; auto].
    + destruct (IH sub H) as [c [Hadd Hin]]. rewrite Hadd.
      rewrite ainsert_same by exact E. eauto.
Qed.

Lemma add_parts_settled_self ns fp parts key m :
  settled fp parts key (fst (add_parts ns parts key fp m)).
Proof.
  revert m. induction parts as [|p ps IH]; intros m; simpl.
  - apply alookup_ainsert_eq.
  - destruct (alookup p m) as [[info|sub]|] eqn:E; simpl.
    + rewrite E. exact I.
    + specialize (IH sub). destruct (add_parts ns ps key fp sub) as [sub' c]; simpl in *.
      rewrite alookup_ainsert_eq. exact IH.
    + specialize (IH []). destruct (add_parts ns ps key fp []) as [sub' c]; simpl in *.
      rewrite alookup_ainsert_eq. exact IH.
Qed.

Lemma add_parts_settled_other ns' fp parts key qs qkey m :
  settled fp parts key m -> settled fp parts key (fst (add_parts ns' qs qkey fp m)).
Proof.
  revert m qs. induction parts as [|p ps IH]; intros m qs H; simpl in H.
  - destruct qs as [|q qs']; simpl.
    + destruct (string_dec key qkey) as [<-|Hne]; simpl.
      * apply alookup_ainsert_eq.
      * simpl. rewrite alookup_ainsert_neq by exact Hne. exact H.
    + destruct (alookup q m) as [[info|sub]|] eqn:E; simpl; [exact H| |];
        destruct (add_parts ns' qs' qkey fp _) as [sub' c]; simpl;
        (destruct (string_dec key q) as [<-|Hne];
         [rewrite H in E; discriminate|rewrite alookup_ainsert_neq by exact Hne; exact H]).
  - destruct qs as [|q qs']; simpl.
    + destruct (string_dec p qkey) as [<-|Hne]; simpl.
      * rewrite alookup_ainsert_eq. exact I.
      * rewrite alookup_ainsert_neq by exact Hne. exact H.
    + destruct (alookup q m) as [[info|sub]|] eqn:E; simpl; [exact H| |].
      * specialize (IH sub qs'). destruct (add_parts ns' qs' qkey fp sub) as [sub' c] eqn:Ea; simpl.
        destruct (string_dec p q) as [<-|Hne].
        -- rewrite alookup_ainsert_eq. rewrite E in H. exact (IH H).
        -- rewrite alookup_ainsert_neq by exact Hne. exact H.
      * destruct (add_parts ns' qs' qkey fp []) as [sub' c]; simpl.
        destruct (string_dec p q) as [<-|Hne].
        -- rewrite E in H. contradiction.
        -- rewrite alookup_ainsert_neq by exact Hne. exact H.
Qed.

Definition settled_pair (fp : string) (m : MessageMap) (nk : string * string) : Prop :=
  settled fp (split_dot (fst nk)) (snd nk) m.

Definition add_pairs (h : MessageHandler) (pairs : list (string * string)) (fp : string) :=
  fold_left (fun h nk => add_extracted_message h (fst nk) (snd nk) fp) pairs h.

Lemma add_extracted_messages_pairs h messages fp :
  add_extracted_messages h messages fp = add_pairs h (flatten messages) fp.
Proof.
  unfold add_extracted_messages, add_pairs, flatten.
  revert h. induction messages as [|[ns keys] rest IH]; intros h; simpl; [reflexivity|].
  rewrite fold_left_app, <- IH. f_equal.
  clear IH. revert h. induction keys as [|k ks IHk]; intros h; simpl; [reflexivity|].
  apply IHk.
Qed.

Lemma add_extracted_message_fields h ns key fp :
  source_messages (add_extracted_message h ns key fp) = source_messages h
  /\ extracted_messages (add_extracted_message h ns key fp)
     = fst (add_parts ns (split_dot ns) key fp (extracted_messages h))
  /\ conflicts (add_extracted_message h ns key fp)
     = conflicts h ++ option_to_list (snd (add_parts ns (split_dot ns) key fp (extracted_messages h))).
Proof.
  unfold add_extracted_message. destruct (add_parts _ _ _ _ _) as [m c]. simpl. auto.
Qed.

(** After a first pass every inserted pair is settled. *)
Lemma add_pairs_settled fp pairs : forall done h,
  Forall (settled_pair fp (extracted_messages h)) done ->
  Forall (settled_pair fp (extracted_messages (add_pairs h pairs fp))) (done ++ pairs).
Proof.
  induction pairs as [|[ns key] rest IH]; intros done h Hd; simpl.
  - rewrite app_nil_r. exact Hd.
  - replace (done ++ (ns, key) :: rest) with ((done ++ [(ns, key)]) ++ rest)
      by (rewrite <- app_assoc; reflexivity).
    apply IH. destruct (add_extracted_message_fields h ns key fp) as [_ [He _]].
    rewrite He. apply Forall_app. split.
    + eapply Forall_impl; [|exact Hd]. intros [ns' key'] Hs.
      apply add_parts_settled_other. exact Hs.
    + constructor; [apply add_parts_settled_self|constructor].
Qed.

(** A second pass over settled pairs changes nothing in the trie and
    records one conflict naming [fp] per pair. *)
Lemma add_pairs_settled_noop fp pairs : forall h,
  Forall (settled_pair fp (extracted_messages h)) pairs ->
  source_messages (add_pairs h pairs fp) = source_messages h
  /\ extracted_messages (add_pairs h pairs fp) = extracted_messages h
  /\ exists added, conflicts (add_pairs h pairs fp) = conflicts h ++ added
                   /\ length added = length pairs
                   /\ Forall (fun c => In fp (c_files c)) added.
Proof.
  induction pairs as [|[ns key] rest IH]; intros h Hs; simpl.
  - repeat split; auto. exists []. rewrite app_nil_r. auto.
  - inversion Hs as [|x xs Hx Hrest]; subst. unfold settled_pair in Hx; simpl in Hx.
    destruct (add_parts_settled_noop ns fp _ _ _ Hx) as [c [Hadd Hin]].
    destruct (add_extracted_message_fields h ns key fp) as [Hsrc [He Hc]].
    rewrite Hadd in He, Hc. simpl in He, Hc.
    destruct (IH (add_extracted_message h ns key fp)) as [Hsrc' [He' [added [Hc' [Hl Hf]]]]].
    { rewrite He. exact Hrest. }
    rewrite Hsrc', He', Hsrc, He. repeat split; auto.
    exists (c :: added). rewrite Hc', Hc, <- app_assoc. simpl. auto.
Qed.

(** C4 (counterexample): processing the same unchanged file twice does not
    give the same conflict set: the second run reports the file's own keys
    as conflicts of the file with itself. *)
Lemma C4_second_run_conflicts :
  let f := Parsed (component "Test" "TestNS" "hello") [] in
  let h1 := fst (process_file_change (new_handler []) "test.tsx" f) in
  let h2 := fst (process_file_change h1 "test.tsx" f) in
  conflicts h1 = []
  /\ conflicts h2 = [mkConflict "TestNS" "hello" ["test.tsx"; "test.tsx"]].
Proof. vm_compute. split; reflexivity. Qed.

Definition extracted_pair_count (f : SourceFile) : nat :=
  match extract_translations f with
  | Ok translations => length (flatten translations)
  | Err _ => 0
  end.

(** C4 (amended): processing a change of the same path twice with an
    unchanged file leaves the trie and the written catalog of the first run
    unchanged, but the second run appends to the conflict list one record
    per extracted (namespace, key) pair, each naming the path itself. *)
Theorem C4_rerun_same_catalog :
  forall h path f,
  let p1 := process_file_change h path f in
  let p2 := process_file_change (fst p1) path f in
  extracted_messages (fst p2) = extracted_messages (fst p1)
  /\ snd p2 = snd p1
  /\ exists added, conflicts (fst p2) = conflicts (fst p1) ++ added
                   /\ length added = extracted_pair_count f
                   /\ Forall (fun c => In path (c_files c)) added.
Proof.
  intros h path f p1 p2. subst p1 p2.
  unfold process_file_change, extracted_pair_count.
  destruct (extract_translations f) as [tr|e]; simpl.
  - rewrite !add_extracted_messages_pairs.
    pose proof (add_pairs_settled path (flatten tr) [] h (Forall_nil _)) as Hs.
    simpl in Hs.
    destruct (add_pairs_settled_noop path (flatten tr) (add_pairs h (flatten tr) path) Hs)
      as [Hsrc [He [added [Hc [Hl Hf]]]]].
    split; [exact He|]. split.
    + unfold merge_messages. rewrite Hsrc, He. reflexivity.
    + exists added. auto.
  - split; [reflexivity|]. split; [reflexivity|].
    exists []. rewrite app_nil_r. auto.
Qed.

(** ** Removing a file after adding its messages *)

Lemma remove_node_Right fp m :
  remove_node fp (Right m) =
  match remove_messages fp m with [] => None | _ => Some (Right (remove_messages fp m)) end.
Proof.
  assert (Hr : forall l,
    (fix retain (m : MessageMap) : MessageMap :=
       match m with
       | [] => []
       | (k, v) :: rest =>
           match remove_node fp v with
           | Some v' => (k, v') :: retain rest
           | None => retain rest
           end
       end) l = remove_messages fp l).
  { induction l as [|[k v] rest IH]; simpl; [reflexivity|]. rewrite IH. reflexivity. }
  simpl. rewrite Hr. reflexivity.
Qed.

Lemma remove_ainsert_first fp k v v0 m :
  alookup k m = Some v0 -> remove_node fp v = remove_node fp v0 ->
  remove_messages fp (ainsert k v m) = remove_messages fp m.
Proof.
  intros Hl Hv. induction m as [|[k' v'] rest IH]; simpl in *; [discriminate|].
  destruct (String.eqb k k') eqn:E.
  - inversion Hl; subst. simpl. rewrite Hv. reflexivity.
  - simpl. rewrite IH by exact Hl. reflexivity.
Qed.

Lemma remove_ainsert_new fp k v m :
  alookup k m = None -> remove_node fp v = None ->
  remove_messages fp (ainsert k v m) = remove_messages fp m.
Proof.
  intros Hl Hv. induction m as [|[k' v'] rest IH]; simpl in *.
  - rewrite Hv. reflexivity.
  - destruct (String.eqb k k') eqn:E; [discriminate|].
    simpl. rewrite IH by exact Hl. reflexivity.
Qed.

Lemma alookup_remove fp k v0 w m :
  alookup k m = Some v0 -> remove_node fp v0 = Some w ->
  alookup k (remove_messages fp m) = Some w.
Proof.
  intros Hl Hw. induction m as [|[k' v'] rest IH]; simpl in *; [discriminate|].
  destruct (String.eqb k k') eqn:E.
  - inversion Hl; subst. rewrite Hw. simpl. rewrite E. reflexivity.
  - destruct (remove_node fp v'); simpl; [rewrite E|]; apply IH; exact Hl.
Qed.

(** The path [parts] then [key] does not collide with [m]: every segment
    present in [m] is a branch and the key is absent. *)
Fixpoint fresh (parts : list string) (key : string) (m : MessageMap) : bool :=
  match parts with
  | [] => match alookup key m with None => true | Some _ => false end
  | part :: rest =>
      match alookup part m with
      | None => true
      | Some (Right sub) => fresh rest key sub
      | Some (Left _) => false
      end
  end.

Lemma fresh_nil parts key : fresh parts key [] = true.
Proof. destruct parts; reflexivity. Qed.

Lemma remove_leaf_of fp : remove_node fp (leaf_of fp) = None.
Proof. simpl. rewrite String.eqb_refl. reflexivity. Qed.

Lemma remove_add_parts_fresh fp ns key parts : forall m,
  fresh parts key (remove_messages fp m) = true ->
  remove_messages fp (fst (add_parts ns parts key fp m)) = remove_messages fp m.
Proof.
  induction parts as [|p ps IH]; intros m H; simpl in *.
  - destruct (alookup key m) as [v0|] eqn:E.
    + apply (remove_ainsert_first _ _ _ v0); [exact E|].
      rewrite remove_leaf_of.
      destruct (remove_node fp v0) as [w|] eqn:Ew; [|reflexivity].
      rewrite (alookup_remove _ _ _ _ _ E Ew) in H. discriminate.
    + apply remove_ainsert_new; [exact E|apply remove_leaf_of].
  - destruct (alookup p m) as [[info|sub]|] eqn:E; simpl; [reflexivity| |].
    + destruct (add_parts ns ps key fp sub) as [sub' c] eqn:Ea. simpl.
      apply (remove_ainsert_first _ _ _ (Right sub)); [exact E|].
      rewrite !remove_node_Right.
      assert (Hsub : remove_messages fp sub' = remove_messages fp sub).
      { replace sub' with (fst (add_parts ns ps key fp sub)) by (rewrite Ea; reflexivity).
        apply IH.
        destruct (remove_messages fp sub) as [|y ys] eqn:Es; [apply fresh_nil|].
        assert (Hn : remove_node fp (Right sub) = Some (Right (y :: ys)))
          by (rewrite remove_node_Right, Es; reflexivity).
        rewrite (alookup_remove _ _ _ _ _ E Hn) in H. exact H. }
      rewrite Hsub. reflexivity.
    + destruct (add_parts ns ps key fp []) as [sub' c] eqn:Ea. simpl.
      apply remove_ainsert_new; [exact E|].
      rewrite remove_node_Right.
      assert (Hsub : remove_messages fp sub' = []).
      { replace sub' with (fst (add_parts ns ps key fp [])) by (rewrite Ea; reflexivity).
        apply (IH []). apply fresh_nil. }
      rewrite Hsub. reflexivity.
Qed.

Definition fresh_pair (m : MessageMap) (nk : string * string) : bool :=
  fresh (split_dot (fst nk)) (snd nk) m.

Lemma remove_add_pairs_fresh fp m0 pairs : forall h,
  remove_messages fp (extracted_messages h) = m0 ->
  forallb (fresh_pair m0) pairs = true ->
  remove_messages fp (extracted_messages (add_pairs h pairs fp)) = m0.
Proof.
  induction pairs as [|[ns key] rest IH]; intros h Hm Hf; simpl in *; [exact Hm|].
  apply andb_prop in Hf as [Hf1 Hf2].
  apply IH; [|exact Hf2].
  destruct (add_extracted_message_fields h ns key fp) as [_ [He _]].
  rewrite He, remove_add_parts_fresh; [exact Hm|].
  rewrite Hm. exact Hf1.
Qed.

(** None of the pairs extracted from [f] collides with [m]. *)
Definition all_fresh (f : SourceFile) (m : MessageMap) : bool :=
  match extract_translations f with
  | Ok translations => forallb (fresh_pair m) (flatten translations)
  | Err _ => true
  end.

(** C5 (counterexample): a change of [test.tsx] that re-extracts the key
    [TestNS.hello] of [other.tsx], followed by the removal of [test.tsx],
    loses the entry of [other.tsx]. *)
Lemma C5_removal_loses_other_file :
  let h := mkHandler [] [("TestNS", Right [("hello", leaf_of "other.tsx")])] [] in
  let h1 := fst (process_file_change h "test.tsx" (Parsed (component "Test" "TestNS" "hello") [])) in
  extracted_messages (fst (process_file_removal h1 "test.tsx")) = []
  /\ extracted_messages h <> [].
Proof. vm_compute. split; [reflexivity|discriminate]. Qed.

(** C5 (amended): when the prior trie holds nothing of [path] (removing
    [path] from it changes nothing) and none of the (namespace, key) pairs
    extracted from the file collides with it, a change of [path] followed by
    its removal gives back the prior trie. *)
Theorem C5_change_then_removal :
  forall h path f,
  remove_messages path (extracted_messages h) = extracted_messages h ->
  all_fresh f (extracted_messages h) = true ->
  extracted_messages (fst (process_file_removal (fst (process_file_change h path f)) path))
  = extracted_messages h.
Proof.
  intros h path f Hclean Hfresh. unfold all_fresh in Hfresh.
  unfold process_file_change. destruct (extract_translations f) as [tr|e]; simpl.
  - rewrite add_extracted_messages_pairs. apply remove_add_pairs_fresh; assumption.
  - exact Hclean.
Qed.

Lemma C5_change_then_removal_witness :
  let h := mkHandler [] [("Other", Right [("k", leaf_of "other.tsx")])] [] in
  let f := Parsed (component "Test" "TestNS" "hello") [] in
  remove_messages "test.tsx" (extracted_messages h) = extracted_messages h
  /\ all_fresh f (extracted_messages h) = true
  /\ extracted_messages (fst (process_file_removal (fst (process_file_change h "test.tsx" f)) "test.tsx"))
     = extracted_messages h.
Proof.
  split; [vm_compute; reflexivity|]. split; [vm_compute; reflexivity|].
  apply C5_change_then_removal; vm_compute; reflexivity.
Defined.

(** ** Branches are never empty *)

Section NodeInd.
Variable P : Node -> Prop.
Hypothesis HLeft : forall info, P (Left info).
Hypothesis HRight : forall m, Forall (fun kv => P (snd kv)) m -> P (Right m).

Fixpoint Node_ind' (n : Node) : P n :=
  match n with
  | Left info => HLeft info
  | Right m =>
      HRight m
        ((fix go (l : list (string * Node)) : Forall (fun kv => P (snd kv)) l :=
            match l with
            | [] => Forall_nil _
            | (k, v) :: rest => @Forall_cons _ (fun kv => P (snd kv)) (k, v) rest (Node_ind' v) (go rest)
            end) m)
  end.
End NodeInd.

Fixpoint wf_node (n : Node) : bool :=
  match n with
  | Left _ => true
  | Right m =>
      match m with [] => false | _ => true end
      && (fix go (l : MessageMap) : bool :=
            match l with
            | [] => true
            | (_, v) :: rest => wf_node v && go rest
            end) m
  end.

Fixpoint wf_map (m : MessageMap) : bool :=
  match m with
  | [] => true
  | (_, v) :: rest => wf_node v && wf_map rest
  end.

Lemma wf_node_Right m :
  wf_node (Right m) = (match m with [] => false | _ => true end && wf_map m).
Proof.
  assert (Hg : forall l,
    (fix go (l : MessageMap) : bool :=
       match l with
       | [] => true
       | (_, v) :: rest => wf_node v && go rest
       end) l = wf_map l).
  { induction l as [|[k v] rest IH]; simpl; [reflexivity|]. rewrite IH. reflexivity. }
  simpl. rewrite Hg. reflexivity.
Qed.

Lemma wf_map_remove_messages fp m :
  Forall (fun kv => forall n', remove_node fp (snd kv) = Some n' -> wf_node n' = true) m ->
  wf_map (remove_messages fp m) = true.
Proof.
  induction m as [|[k v] rest IH]; intros Hf; simpl; [reflexivity|].
  inversion Hf as [|x xs Hx Hrest]; subst. simpl in Hx.
  destruct (remove_node fp v) as [v'|] eqn:E; simpl.
  - rewrite (Hx v' eq_refl). apply IH. exact Hrest.
  - apply IH. exact Hrest.
Qed.

Lemma remove_node_wf fp n : forall n', remove_node fp n = Some n' -> wf_node n' = true.
Proof.
  induction n as [info|m IH] using Node_ind'; intros n' H.
  - simpl in H. destruct (String.eqb (file_path info) fp); inversion H; reflexivity.
  - rewrite remove_node_Right in H.
    pose proof (wf_map_remove_messages fp m IH) as Hw.
    destruct (remove_messages fp m) as [|y ys] eqn:Es; inversion H; subst.
    rewrite wf_node_Right. exact Hw.
Qed.

Lemma wf_remove_messages fp m : wf_map (remove_messages fp m) = true.
Proof.
  apply wf_map_remove_messages. apply Forall_forall. intros [k v] _. apply remove_node_wf.
Qed.

Lemma wf_map_ainsert k v m :
  wf_map m = true -> wf_node v = true -> wf_map (ainsert k v m) = true.
Proof.
  intros Hm Hv. induction m as [|[k' v'] rest IH]; simpl in *.
  - rewrite Hv. reflexivity.
  - apply andb_prop in Hm as [H1 H2].
    destruct (String.eqb k k'); simpl; rewrite ?Hv, ?H1, ?H2; simpl; auto.
Qed.

Lemma wf_map_lookup k v m : wf_map m = true -> alookup k m = Some v -> wf_node v = true.
Proof.
  induction m as [|[k' v'] rest IH]; simpl; [discriminate|].
  intros Hm Hl. apply andb_prop in Hm as [H1 H2].
  destruct (String.eqb k k'); [inversion Hl; subst; exact H1|exact (IH H2 Hl)].
Qed.

Lemma add_parts_not_nil ns parts key fp m : fst (add_parts ns parts key fp m) <> [].
Proof.
  destruct parts as [|p ps]; simpl; [apply ainsert_not_nil|].
  destruct (alookup p m) as [[info|sub]|] eqn:E; simpl.
  - destruct m; [discriminate|discriminate].
  - destruct (add_parts ns ps key fp sub); apply ainsert_not_nil.
  - destruct (add_parts ns ps key fp []); apply ainsert_not_nil.
Qed.

Lemma wf_add_parts ns key fp parts : forall m,
  wf_map m = true -> wf_map (fst (add_parts ns parts key fp m)) = true.
Proof.
  induction parts as [|p ps IH]; intros m Hm; simpl.
  - apply wf_map_ainsert; [exact Hm|reflexivity].
  - destruct (alookup p m) as [[info|sub]|] eqn:E; simpl; [exact Hm| |].
    + pose proof (wf_map_lookup _ _ _ Hm E) as Hs. rewrite wf_node_Right in Hs.
      apply andb_prop in Hs as [_ Hs].
      pose proof (IH sub Hs) as Hw. pose proof (add_parts_not_nil ns ps key fp sub) as Hn.
      destruct (add_parts ns ps key fp sub) as [sub' c]; simpl in *.
      apply wf_map_ainsert; [exact Hm|].
      rewrite wf_node_Right, Hw. destruct sub'; [congruence|reflexivity].
    + pose proof (IH [] eq_refl) as Hw. pose proof (add_parts_not_nil ns ps key fp []) as Hn.
      destruct (add_parts ns ps key fp []) as [sub' c]; simpl in *.
      apply wf_map_ainsert; [exact Hm|].
      rewrite wf_node_Right, Hw. destruct sub'; [congruence|reflexivity].
Qed.

(** The operations on a [MessageHandler] that change its trie. *)
Inductive HandlerOp :=
| AddMessage (namespace key fp : string)
| RemoveFile (fp : string).

Definition run_op (h : MessageHandler) (op : HandlerOp) : MessageHandler :=
  match op with
  | AddMessage ns key fp => add_extracted_message h ns key fp
  | RemoveFile fp => remove_messages_for_file h fp
  end.

Definition run_ops (h : MessageHandler) (ops : list HandlerOp) : MessageHandler :=
  fold_left run_op ops h.

Lemma run_ops_wf ops : forall h,
  wf_map (extracted_messages h) = true -> wf_map (extracted_messages (run_ops h ops)) = true.
Proof.
  induction ops as [|op rest IH]; intros h Hh; simpl; [exact Hh|].
  apply IH. destruct op as [ns key fp|fp]; simpl.
  - destruct (add_extracted_message_fields h ns key fp) as [_ [He _]].
    rewrite He. apply wf_add_parts. exact Hh.
  - apply wf_remove_messages.
Qed.

(** C10: along any sequence of [add_extracted_message] and
    [remove_messages_for_file] calls from a new handler, every branch of the
    trie has at least one entry after each call. *)
Theorem C10_branches_nonempty :
  forall src ops, wf_map (extracted_messages (run_ops (new_handler src) ops)) = true.
Proof. intros src ops. apply run_ops_wf. reflexivity. Qed.

(** ** Binding lookup and scopes *)

(** [function Outer() { const t = useTranslations("ns"); function Inner() { t("k"); } }] *)
Definition outer_inner : list Statement :=
  [FunctionDeclaration (Some "Outer")
     [VariableDeclaration
        [(BindingIdentifier "t", Some (CallExpression (Identifier "useTranslations") [StringLiteral "ns"]))];
      FunctionDeclaration (Some "Inner")
        [ExpressionStatement (CallExpression (Identifier "t") [StringLiteral "k"])]]].

(** C6: a call changes the binding table only at the key made of the scope
    path at the call and the callee identifier (or the object of a static
    member callee), and only when a binding with exactly that key exists;
    so a binding of [Outer] used inside [Inner] collects no key. *)
Theorem C6_exact_scope_lookup :
  (forall v callee args q,
     alookup q (translation_functions (visit_call_expression v callee args))
       <> alookup q (translation_functions v) ->
     exists name,
       (callee = Identifier name \/ exists prop, callee = StaticMemberExpression (Identifier name) prop)
       /\ q = qualified_name (current_scope_name v) name
       /\ alookup q (translation_functions v) <> None)
  /\ (forall v callee args,
        current_scope (visit_call_expression v callee args) = current_scope v)
  /\ extract_translations (Parsed outer_inner []) = Ok [("ns", [])].
Proof.
  split; [|split].
  - intros v callee args q H.
    assert (Hrec : forall name, alookup q (translation_functions (record_usage v name args))
                                <> alookup q (translation_functions v) ->
                   q = qualified_name (current_scope_name v) name
                   /\ alookup q (translation_functions v) <> None).
    { intros name Hn. unfold record_usage in Hn.
      destruct (alookup (qualified_name (current_scope_name v) name) (translation_functions v))
        as [info|] eqn:E; [|contradiction].
      destruct args as [|[] rest]; try contradiction. simpl in Hn.
      destruct (string_dec q (qualified_name (current_scope_name v) name)) as [->|Hne].
      - split; [reflexivity|]. rewrite E. discriminate.
      - rewrite alookup_ainsert_neq in Hn by exact Hne. contradiction. }
    destruct callee; try contradiction.
    + exists name. destruct (Hrec name H). auto.
    + destruct callee; try contradiction.
      exists name. destruct (Hrec name H). split; eauto.
  - intros v callee args.
    assert (Hs : forall name, current_scope (record_usage v name args) = current_scope v).
    { intros name. unfold record_usage.
      destruct (alookup _ _); [|reflexivity]. destruct args as [|[] rest]; reflexivity. }
    destruct callee; try reflexivity; [apply Hs|].
    destruct callee; try reflexivity. apply Hs.
  - vm_compute. reflexivity.
Qed.

(** [function Outer() { const t = useTranslations("ns"); (function () {}); t("k"); }] *)
Definition outer_with_anonymous : list Statement :=
  [FunctionDeclaration (Some "Outer")
     [VariableDeclaration
        [(BindingIdentifier "t", Some (CallExpression (Identifier "useTranslations") [StringLiteral "ns"]))];
      ExpressionStatement (FunctionExpression None []);
      ExpressionStatement (CallExpression (Identifier "t") [StringLiteral "k"])]].

(** C7 (code bug): [visit_function] pops the scope stack even for a
    function without a name, which it did not push: inside [Outer] an
    anonymous function leaves the stack empty, and the later call [t("k")]
    of [Outer] is no longer found. *)
Theorem C7_anonymous_function_pops :
  current_scope (visit_expression (mkVisitor [] ["Outer"] []) (FunctionExpression None []))
    = []
  /\ extract_translations (Parsed outer_with_anonymous []) = Ok [("ns", [])]
  /\ extract_translations (Parsed (component "Outer" "ns" "k") []) = Ok [("ns", ["k"])].
Proof. vm_compute. repeat split. Qed.

(** ** Binding creation *)

Definition is_hook (name : string) : bool :=
  String.eqb name "useTranslations" || String.eqb name "getTranslations".

(** The initializer is a call of the hook [h] whose namespace the code
    resolves to [ns]: a direct call with a string literal first argument, or
    an awaited call with an object literal first argument having a
    [namespace] property whose value is a string literal. *)
Definition resolved_hook_call (init : option Expression) (h ns : string) : Prop :=
  is_hook h = true /\
  ((exists rest, init = Some (CallExpression (Identifier h) (StringLiteral ns :: rest)))
   \/ (exists props rest,
         init = Some (AwaitExpression (CallExpression (Identifier h) (ObjectExpression props :: rest)))
         /\ find_map namespace_property props = Some ns)).

(** The initializer is a call of the hook [h] whose namespace the code does
    not resolve. *)
Definition unresolved_hook_call (init : option Expression) (h : string) : Prop :=
  is_hook h = true /\
  exists args,
    (init = Some (CallExpression (Identifier h) args)
     /\ forall ns rest, args <> StringLiteral ns :: rest)
    \/ (init = Some (AwaitExpression (CallExpression (Identifier h) args))
        /\ forall props rest, args = ObjectExpression props :: rest ->
                              find_map namespace_property props = None).

Lemma hook_guard h :
  is_hook h = true ->
  negb (String.eqb h "useTranslations") && negb (String.eqb h "getTranslations") = false.
Proof.
  unfold is_hook. destruct (String.eqb h "useTranslations"), (String.eqb h "getTranslations");
    simpl; congruence.
Qed.

Lemma hook_guard_false h :
  negb (String.eqb h "useTranslations") && negb (String.eqb h "getTranslations") = false ->
  is_hook h = true.
Proof.
  unfold is_hook. destruct (String.eqb h "useTranslations"), (String.eqb h "getTranslations");
    simpl; congruence.
Qed.

(** C8 (counterexample): [const t = await getTranslations("ns")] and
    [const t = useTranslations({ namespace: "ns" })] create no binding: the
    awaited call only takes the object form and the direct call only the
    string form; both log a warning. *)
Lemma C8_swapped_forms_dropped :
  visit_declarator new_visitor
    (BindingIdentifier "t",
     Some (AwaitExpression (CallExpression (Identifier "getTranslations") [StringLiteral "ns"])))
  = mkVisitor [] [] ["getTranslations"]
  /\ visit_declarator new_visitor
    (BindingIdentifier "t",
     Some (CallExpression (Identifier "useTranslations")
             [ObjectExpression [(StaticIdentifier "namespace", StringLiteral "ns")]]))
  = mkVisitor [] [] ["useTranslations"].
Proof. split; reflexivity. Qed.

(** C8 (amended): a declarator [d = init] records the binding
    [scope:d -> ns] exactly when [d] is a plain identifier and [init] is a
    direct call of [useTranslations] or [getTranslations] with the string
    literal [ns] first, or an awaited call of either with an object literal
    first whose [namespace] property is the string literal [ns]; a call of
    either hook whose namespace is not resolved that way logs a warning and
    records nothing; the scope is never changed. *)
Theorem C8_binding_creation :
  forall v id init,
  let v' := visit_declarator v (id, init) in
  (forall d h ns, id = BindingIdentifier d -> resolved_hook_call init h ns ->
     v' = mkVisitor (ainsert (qualified_name (current_scope_name v) d)
                       (mkTranslationFunction ns []) (translation_functions v))
                    (current_scope v) (warnings v))
  /\ (forall h, unresolved_hook_call init h ->
        v' = mkVisitor (translation_functions v) (current_scope v) (warnings v ++ [h]))
  /\ (translation_functions v' <> translation_functions v ->
        exists d h ns, id = BindingIdentifier d /\ resolved_hook_call init h ns)
  /\ current_scope v' = current_scope v.
Proof.
  intros v id init v'. subst v'. split; [|split; [|split]].
  - intros d h ns -> [Hh [[rest ->]|[props [rest [-> Hp]]]]];
      unfold visit_declarator; simpl; rewrite (hook_guard h Hh); simpl; [reflexivity|].
    rewrite Hp. reflexivity.
  - intros h [Hh [args [[-> Hargs]|[-> Hargs]]]];
      unfold visit_declarator; simpl; rewrite (hook_guard h Hh); simpl.
    + destruct args as [|[] rest]; try reflexivity. exfalso. eapply Hargs. reflexivity.
    + destruct args as [|[] rest]; try reflexivity. rewrite (Hargs _ rest eq_refl). reflexivity.
  - intros Hne. unfold visit_declarator in Hne.
    destruct init as [e|]; [|contradiction].
    destruct e as [?|?|callee args|? ?|arg|?|? ?|?|?]; try contradiction.
    + destruct callee as [name|?|? ?|? ?|?|?|? ?|?|?]; try contradiction.
      destruct (negb (String.eqb name "useTranslations") && negb (String.eqb name "getTranslations"))
        eqn:G; [contradiction|].
      destruct args as [|[lit|ns|? ?|? ?|?|?|? ?|?|?] rest]; simpl in Hne; try contradiction.
      destruct id as [d|]; [|contradiction].
      exists d, name, ns. split; [reflexivity|]. split; [apply hook_guard_false; exact G|].
      left. eauto.
    + destruct arg as [?|?|callee args|? ?|?|?|? ?|?|?]; try contradiction.
      destruct callee as [name|?|? ?|? ?|?|?|? ?|?|?]; try contradiction.
      destruct (negb (String.eqb name "useTranslations") && negb (String.eqb name "getTranslations"))
        eqn:G; [contradiction|].
      destruct args as [|[?|?|? ?|? ?|?|props|? ?|?|?] rest]; simpl in Hne; try contradiction.
      destruct (find_map namespace_property props) as [ns|] eqn:Hp; [|contradiction].
      destruct id as [d|]; [|contradiction].
      exists d, name, ns. split; [reflexivity|]. split; [apply hook_guard_false; exact G|].
      right. eauto.
  - unfold visit_declarator.
    destruct init as [[]|]; try reflexivity.
    + destruct callee; try reflexivity.
      destruct (_ && _); [reflexivity|].
      destruct (extract_namespace_from_translations_call _ _); [|reflexivity].
      destruct id; reflexivity.
    + destruct argument; try reflexivity. destruct argument; try reflexivity.
      destruct (_ && _); [reflexivity|].
      destruct (extract_namespace_from_translations_call _ _); [|reflexivity].
      destruct id; reflexivity.
Qed.

(** ** Files with parse errors *)

(** C9 (counterexample): a changed file whose parse reported an error but
    whose recovered program still holds a usage contributes that usage; it
    is not treated as an empty extraction result. *)
Lemma C9_parse_error_file_contributes :
  let f := Parsed (component "Test" "TestNS" "hello") ["Expected a semicolon but found `}`"] in
  extracted_messages (fst (process_file_change (new_handler []) "broken.tsx" f))
  = [("TestNS", Right [("hello", leaf_of "broken.tsx")])].
Proof. reflexivity. Qed.

(** C9 (amended): parse errors are only reported and do not change the
    event: extraction runs on the program the parser returned, its keys are
    added and the merged catalog is written (nothing is added when the
    parser returned an empty program); a file that cannot be read makes the
    event fail, the watch loop logs the error and goes on with the next
    event. *)
Theorem C9_parse_errors_not_fatal :
  (forall h path program errors,
     process_file_change h path (Parsed program errors)
       = process_file_change h path (Parsed program [])
     /\ snd (process_file_change h path (Parsed program errors))
        = Ok (merge_messages (fst (process_file_change h path (Parsed program errors)))))
  /\ (forall h path errors, fst (process_file_change h path (Parsed [] errors)) = h)
  /\ (forall s path events,
        watch_loop s (Changed path Unreadable :: events)
        = watch_loop (mkWatchState (handler s) (written s)
                        (errors_logged s ++ ["failed to read source file"])) events).
Proof.
  split; [|split].
  - intros h path program errors. split; reflexivity.
  - intros h path errors. reflexivity.
  - intros s path events. reflexivity.
Qed.

(** * Further properties of the model *)

(** ** Association-list facts *)

Lemma in_keys_ainsert {V} k (v : V) m x :
  In x (map fst (ainsert k v m)) -> x = k \/ In x (map fst m).
Proof.
  induction m as [|[k' v'] rest IH]; simpl.
  - intros [->|[]]. auto.
  - destruct (String.eqb k k'); simpl; intros [->|H]; auto.
    destruct (IH H); auto.
Qed.

Lemma in_ainsert {V} k (v : V) m q w :
  In (q, w) (ainsert k v m) -> (q, w) = (k, v) \/ In (q, w) m.
Proof.
  induction m as [|[k' v'] rest IH]; simpl.
  - intros [H|[]]. auto.
  - destruct (String.eqb k k') eqn:E; simpl; intros [H|H]; auto.
    + apply String.eqb_eq in E. subst. inversion H; subst. auto.
    + destruct (IH H); auto.
Qed.

Lemma alookup_In {V} k (v : V) m : alookup k m = Some v -> In (k, v) m.
Proof.
  induction m as [|[k' v'] rest IH]; simpl; [discriminate|].
  destruct (String.eqb k k') eqn:E; intros H.
  - apply String.eqb_eq in E. inversion H; subst. auto.
  - auto.
Qed.

Lemma alookup_None {V} k (m : list (string * V)) :
  ~ In k (map fst m) -> alookup k m = None.
Proof.
  induction m as [|[k' v'] rest IH]; simpl; [reflexivity|].
  intros Hn. destruct (String.eqb k k') eqn:E.
  - apply String.eqb_eq in E. subst. exfalso. auto.
  - auto.
Qed.

Lemma alookup_some_in {V} k (v : V) m : alookup k m = Some v -> In k (map fst m).
Proof. intros H. apply alookup_In in H. apply (in_map fst) in H. exact H. Qed.

Lemma ainsert_new {V} k (v : V) m : alookup k m = None -> ainsert k v m = m ++ [(k, v)].
Proof.
  induction m as [|[k' v'] rest IH]; simpl; [reflexivity|].
  destruct (String.eqb k k'); [discriminate|]. intros H. rewrite IH by exact H. reflexivity.
Qed.

Lemma alookup_app_None {V} k (m1 m2 : list (string * V)) :
  alookup k m1 = None -> alookup k (m1 ++ m2) = alookup k m2.
Proof.
  induction m1 as [|[k' v'] rest IH]; simpl; [reflexivity|].
  destruct (String.eqb k k'); [discriminate|]. exact IH.
Qed.

Lemma existsb_eqb_false k l : existsb (String.eqb k) l = false -> ~ In k l.
Proof.
  intros H Hin. assert (Ht : existsb (String.eqb k) l = true).
  { apply existsb_exists. exists k. split; [exact Hin|apply String.eqb_refl]. }
  congruence.
Qed.

Lemma existsb_eqb_false_iff k l : ~ In k l -> existsb (String.eqb k) l = false.
Proof.
  intros Hn. destruct (existsb (String.eqb k) l) eqn:E; [|reflexivity].
  apply existsb_exists in E as [x [Hx Hk]]. apply String.eqb_eq in Hk. subst. contradiction.
Qed.

(** ** Keys are unique at every level of the trie *)

Fixpoint uniq_node (n : Node) : bool :=
  match n with
  | Left _ => true
  | Right m =>
      (fix go (l : MessageMap) : bool :=
         match l with
         | [] => true
         | (k, v) :: rest => negb (existsb (String.eqb k) (map fst rest)) && uniq_node v && go rest
         end) m
  end.

Fixpoint uniq_map (m : MessageMap) : bool :=
  match m with
  | [] => true
  | (k, v) :: rest => negb (existsb (String.eqb k) (map fst rest)) && uniq_node v && uniq_map rest
  end.

Lemma uniq_node_Right m : uniq_node (Right m) = uniq_map m.
Proof.
  assert (Hg : forall l,
    (fix go (l : MessageMap) : bool :=
       match l with
       | [] => true
       | (k, v) :: rest => negb (existsb (String.eqb k) (map fst rest)) && uniq_node v && go rest
       end) l = uniq_map l).
  { induction l as [|[k v] rest IH]; simpl; [reflexivity|]. rewrite IH. reflexivity. }
  simpl. apply Hg.
Qed.

Lemma uniq_map_cons k v rest :
  uniq_map ((k, v) :: rest) = true <->
  ~ In k (map fst rest) /\ uniq_node v = true /\ uniq_map rest = true.
Proof.
  simpl. split.
  - intros H. apply andb_prop in H as [H H3]. apply andb_prop in H as [H1 H2].
    apply negb_true_iff in H1. repeat split; auto. apply existsb_eqb_false. exact H1.
  - intros [H1 [H2 H3]]. rewrite existsb_eqb_false_iff by exact H1. rewrite H2, H3. reflexivity.
Qed.

Lemma uniq_map_ainsert k v m :
  uniq_map m = true -> uniq_node v = true -> uniq_map (ainsert k v m) = true.
Proof.
  intros Hm Hv. induction m as [|[k' v'] rest IH]; simpl.
  - rewrite Hv. reflexivity.
  - apply uniq_map_cons in Hm as [H1 [H2 H3]].
    destruct (String.eqb k k') eqn:E; apply uniq_map_cons; repeat split; auto.
    intros Hin. apply in_keys_ainsert in Hin as [->|Hin]; [|contradiction].
    rewrite String.eqb_refl in E. discriminate.
Qed.

Lemma uniq_map_lookup k v m : uniq_map m = true -> alookup k m = Some v -> uniq_node v = true.
Proof.
  induction m as [|[k' v'] rest IH]; simpl; [discriminate|].
  intros Hm Hl. apply andb_prop in Hm as [H H3]. apply andb_prop in H as [_ H2].
  destruct (String.eqb k k'); [inversion Hl; subst; exact H2|exact (IH H3 Hl)].
Qed.

Lemma uniq_add_parts ns key fp parts : forall m,
  uniq_map m = true -> uniq_map (fst (add_parts ns parts key fp m)) = true.
Proof.
  induction parts as [|p ps IH]; intros m Hm; simpl.
  - apply uniq_map_ainsert; [exact Hm|reflexivity].
  - destruct (alookup p m) as [[info|sub]|] eqn:E; simpl; [exact Hm| |].
    + pose proof (uniq_map_lookup _ _ _ Hm E) as Hs. rewrite uniq_node_Right in Hs.
      pose proof (IH sub Hs) as Hw.
      destruct (add_parts ns ps key fp sub) as [sub' c]; simpl in *.
      apply uniq_map_ainsert; [exact Hm|]. rewrite uniq_node_Right. exact Hw.
    + pose proof (IH [] eq_refl) as Hw.
      destruct (add_parts ns ps key fp []) as [sub' c]; simpl in *.
      apply uniq_map_ainsert; [exact Hm|]. rewrite uniq_node_Right. exact Hw.
Qed.

Lemma keys_remove_messages fp m x :
  In x (map fst (remove_messages fp m)) -> In x (map fst m).
Proof.
  induction m as [|[k v] rest IH]; simpl; [auto|].
  destruct (remove_node fp v); simpl; intros H; [destruct H; auto|auto].
Qed.

Lemma uniq_remove_map fp m :
  Forall (fun kv => forall n', remove_node fp (snd kv) = Some n' ->
                    uniq_node (snd kv) = true -> uniq_node n' = true) m ->
  uniq_map m = true -> uniq_map (remove_messages fp m) = true.
Proof.
  induction m as [|[k v] rest IH]; intros Hf Hm; simpl; [reflexivity|].
  inversion Hf as [|x xs Hx Hrest]; subst. simpl in Hx.
  apply uniq_map_cons in Hm as [H1 [H2 H3]].
  destruct (remove_node fp v) as [v'|] eqn:E.
  - apply uniq_map_cons. repeat split.
    + intros Hin. apply keys_remove_messages in Hin. contradiction.
    + exact (Hx v' eq_refl H2).
    + exact (IH Hrest H3).
  - exact (IH Hrest H3).
Qed.

Lemma uniq_remove_node fp n : forall n',
  remove_node fp n = Some n' -> uniq_node n = true -> uniq_node n' = true.
Proof.
  induction n as [info|m IH] using Node_ind'; intros n' H Hu.
  - simpl in H. destruct (String.eqb (file_path info) fp); inversion H; reflexivity.
  - rewrite remove_node_Right in H. rewrite uniq_node_Right in Hu.
    pose proof (uniq_remove_map fp m IH Hu) as Hw.
    destruct (remove_messages fp m) as [|y ys] eqn:Es; inversion H; subst.
    rewrite uniq_node_Right. exact Hw.
Qed.

Lemma uniq_remove_messages fp m : uniq_map m = true -> uniq_map (remove_messages fp m) = true.
Proof.
  apply uniq_remove_map. apply Forall_forall. intros [k v] _. apply uniq_remove_node.
Qed.

Lemma run_ops_uniq ops : forall h,
  uniq_map (extracted_messages h) = true -> uniq_map (extracted_messages (run_ops h ops)) = true.
Proof.
  induction ops as [|op rest IH]; intros h Hh; simpl; [exact Hh|].
  apply IH. destruct op as [ns key fp|fp]; simpl.
  - destruct (add_extracted_message_fields h ns key fp) as [_ [He _]].
    rewrite He. apply uniq_add_parts. exact Hh.
  - apply uniq_remove_messages. exact Hh.
Qed.

Lemma reachable_uniq src ops : uniq_map (extracted_messages (run_ops (new_handler src) ops)) = true.
Proof. apply run_ops_uniq. reflexivity. Qed.

(** ** The merged catalog, entry by entry *)

(** The value [merge_recursive] writes for the entry [(key, n)] of a map
    merged with prefix [prefix]. *)
Definition entry_value (src : list (string * Value)) (prefix : option string)
    (key : string) (n : Node) : Value :=
  match n with
  | Left _ =>
      let full_key := match prefix with Some p => (p ++ "." ++ key)%string | None => key end in
      match lookup_in_source src full_key key with
      | Some source_value => source_value
      | None => VString full_key
      end
  | Right nested => VObject (merge_recursive src nested (Some key) [])
  end.

Lemma merge_entry_ainsert src prefix key n out :
  merge_entry src prefix key n out = ainsert key (entry_value src prefix key n) out.
Proof.
  destruct n as [info|nested]; simpl.
  - destruct (lookup_in_source _ _ _); reflexivity.
  - f_equal. f_equal. generalize (@nil (string * Value)) as out0.
    induction nested as [|[k v] rest IH]; intros out0; simpl; [reflexivity|]. apply IH.
Qed.

Definition merged_map (src : list (string * Value)) (m : MessageMap) (prefix : option string)
    : list (string * Value) :=
  map (fun kv => (fst kv, entry_value src prefix (fst kv) (snd kv))) m.

Lemma merge_recursive_app src m prefix : forall out,
  uniq_map m = true ->
  (forall k, In k (map fst m) -> alookup k out = None) ->
  merge_recursive src m prefix out = out ++ merged_map src m prefix.
Proof.
  induction m as [|[k v] rest IH]; intros out Hu Hout; simpl.
  - rewrite app_nil_r. reflexivity.
  - apply uniq_map_cons in Hu as [H1 [_ H3]].
    rewrite merge_entry_ainsert, ainsert_new by (apply Hout; simpl; auto).
    rewrite IH; [rewrite <- app_assoc; reflexivity|exact H3|].
    intros k' Hk'. rewrite alookup_app_None by (apply Hout; simpl; auto).
    simpl. destruct (String.eqb k' k) eqn:E; [|reflexivity].
    apply String.eqb_eq in E. subst. contradiction.
Qed.

Lemma merge_recursive_nil src m prefix :
  uniq_map m = true -> merge_recursive src m prefix [] = merged_map src m prefix.
Proof. intros Hu. apply merge_recursive_app; [exact Hu|reflexivity]. Qed.

Lemma alookup_merged_map src m prefix k :
  alookup k (merged_map src m prefix)
  = match alookup k m with Some n => Some (entry_value src prefix k n) | None => None end.
Proof.
  induction m as [|[k' v] rest IH]; simpl; [reflexivity|].
  destruct (String.eqb k k') eqn:E; [|exact IH].
  apply String.eqb_eq in E. subst. reflexivity.
Qed.






(** Dot-free strings and [split_dot] *)
Fixpoint no_dot (s : string) : bool :=
  match s with
  | EmptyString => true
  | String c rest => negb (Ascii.eqb c ".") && no_dot rest
  end.

Lemma split_dot_cons s : exists w ws, split_dot s = w :: ws.
Proof.
  induction s as [|c rest IH]; simpl; [eauto|].
  destruct IH as [w [ws ->]]. destruct (Ascii.eqb c "."); eauto.
Qed.

Lemma split_dot_no_dot s : no_dot s = true -> split_dot s = [s].
Proof.
  induction s as [|c rest IH]; simpl; [reflexivity|].
  intros H. apply andb_prop in H as [H1 H2]. rewrite (IH H2).
  apply negb_true_iff in H1. rewrite H1. reflexivity.
Qed.

Lemma split_dot_dot a b : no_dot a = true -> split_dot (a ++ String "." b)%string = a :: split_dot b.
Proof.
  induction a as [|c rest IH]; simpl; intros H.
  - destruct (split_dot_cons b) as [w [ws ->]]. reflexivity.
  - apply andb_prop in H as [H1 H2]. rewrite (IH H2).
    apply negb_true_iff in H1. rewrite H1. reflexivity.
Qed.

Lemma run_ops_source ops : forall h, source_messages (run_ops h ops) = source_messages h.
Proof.
  induction ops as [|op rest IH]; intros h; simpl; [reflexivity|].
  rewrite IH. destruct op as [ns key fp|fp]; simpl; [|reflexivity].
  destruct (add_extracted_message_fields h ns key fp) as [Hs _]. exact Hs.
Qed.

(** ** Files owning the leaves of a trie *)

Fixpoint node_files (n : Node) : list string :=
  match n with
  | Left info => [file_path info]
  | Right m =>
      (fix go (l : MessageMap) : list string :=
         match l with
         | [] => []
         | (_, v) :: rest => node_files v ++ go rest
         end) m
  end.

Fixpoint map_files (m : MessageMap) : list string :=
  match m with
  | [] => []
  | (_, v) :: rest => node_files v ++ map_files rest
  end.

Lemma node_files_Right m : node_files (Right m) = map_files m.
Proof.
  simpl. induction m as [|[k v] rest IH]; simpl; [reflexivity|]. rewrite IH. reflexivity.
Qed.

Definition opt_files (o : option Node) : list string :=
  match o with Some n => node_files n | None => [] end.

Lemma remove_map_files fp m :
  Forall (fun kv => opt_files (remove_node fp (snd kv))
                    = filter (fun f => negb (String.eqb f fp)) (node_files (snd kv))) m ->
  map_files (remove_messages fp m) = filter (fun f => negb (String.eqb f fp)) (map_files m).
Proof.
  induction m as [|[k v] rest IH]; intros Hf; simpl; [reflexivity|].
  inversion Hf as [|x xs Hx Hrest]; subst. simpl in Hx.
  rewrite filter_app, <- Hx, <- (IH Hrest).
  destruct (remove_node fp v); reflexivity.
Qed.

Lemma remove_node_files fp n :
  opt_files (remove_node fp n) = filter (fun f => negb (String.eqb f fp)) (node_files n).
Proof.
  induction n as [info|m IH] using Node_ind'.
  - simpl. destruct (String.eqb (file_path info) fp); reflexivity.
  - rewrite remove_node_Right, node_files_Right, <- (remove_map_files fp m IH).
    destruct (remove_messages fp m); reflexivity.
Qed.

Lemma remove_messages_files fp m :
  map_files (remove_messages fp m) = filter (fun f => negb (String.eqb f fp)) (map_files m).
Proof.
  apply remove_map_files. apply Forall_forall. intros [k v] _. apply remove_node_files.
Qed.

(** ** Removal twice, and removal of two files *)

Lemma remove_map_idem fp m :
  Forall (fun kv => forall n', remove_node fp (snd kv) = Some n' -> remove_node fp n' = Some n') m ->
  remove_messages fp (remove_messages fp m) = remove_messages fp m.
Proof.
  induction m as [|[k v] rest IH]; intros Hf; simpl; [reflexivity|].
  inversion Hf as [|x xs Hx Hrest]; subst. simpl in Hx.
  destruct (remove_node fp v) as [v'|] eqn:E; simpl.
  - rewrite (Hx v' eq_refl), (IH Hrest). reflexivity.
  - exact (IH Hrest).
Qed.

Lemma remove_node_idem fp n : forall n', remove_node fp n = Some n' -> remove_node fp n' = Some n'.
Proof.
  induction n as [info|m IH] using Node_ind'; intros n' H.
  - simpl in H. destruct (String.eqb (file_path info) fp) eqn:E; inversion H; subst.
    simpl. rewrite E. reflexivity.
  - rewrite remove_node_Right in H.
    destruct (remove_messages fp m) as [|y ys] eqn:Es; inversion H; subst.
    rewrite remove_node_Right, <- Es, (remove_map_idem fp m IH), Es. reflexivity.
Qed.

Lemma remove_messages_idem fp m :
  remove_messages fp (remove_messages fp m) = remove_messages fp m.
Proof.
  apply remove_map_idem. apply Forall_forall. intros [k v] _. apply remove_node_idem.
Qed.

Lemma filter_idem {A} (p : A -> bool) l : filter p (filter p l) = filter p l.
Proof.
  induction l as [|x rest IH]; simpl; [reflexivity|].
  destruct (p x) eqn:E; simpl; [rewrite E, IH|]; auto.
Qed.

Lemma filter_comm {A} (p q : A -> bool) l : filter p (filter q l) = filter q (filter p l).
Proof.
  induction l as [|x rest IH]; simpl; [reflexivity|].
  destruct (p x) eqn:Ep, (q x) eqn:Eq; simpl; rewrite ?Ep, ?Eq, IH; reflexivity.
Qed.

(** [remove_node f1] after [remove_node f2] *)
Definition remove_node2 (f1 f2 : string) (n : Node) : option Node :=
  match remove_node f2 n with Some n' => remove_node f1 n' | None => None end.

Lemma remove_node2_Right f1 f2 m :
  remove_node2 f1 f2 (Right m)
  = match remove_messages f1 (remove_messages f2 m) with
    | [] => None
    | l => Some (Right l)
    end.
Proof.
  unfold remove_node2. rewrite remove_node_Right.
  destruct (remove_messages f2 m) as [|y ys] eqn:E; [reflexivity|].
  rewrite remove_node_Right. destruct (remove_messages f1 (y :: ys)); reflexivity.
Qed.

Lemma remove_messages2_cons f1 f2 k v rest :
  remove_messages f1 (remove_messages f2 ((k, v) :: rest))
  = match remove_node2 f1 f2 v with
    | Some w => (k, w) :: remove_messages f1 (remove_messages f2 rest)
    | None => remove_messages f1 (remove_messages f2 rest)
    end.
Proof.
  unfold remove_node2. simpl. destruct (remove_node f2 v) as [v'|]; simpl; [|reflexivity].
  destruct (remove_node f1 v'); reflexivity.
Qed.

Lemma remove_map_comm f1 f2 m :
  Forall (fun kv => remove_node2 f1 f2 (snd kv) = remove_node2 f2 f1 (snd kv)) m ->
  remove_messages f1 (remove_messages f2 m) = remove_messages f2 (remove_messages f1 m).
Proof.
  induction m as [|[k v] rest IH]; intros Hf; [reflexivity|].
  inversion Hf as [|x xs Hx Hrest]; subst. simpl in Hx.
  rewrite !remove_messages2_cons, Hx, (IH Hrest). reflexivity.
Qed.

Lemma remove_node_comm f1 f2 n : remove_node2 f1 f2 n = remove_node2 f2 f1 n.
Proof.
  induction n as [info|m IH] using Node_ind'.
  - unfold remove_node2. simpl.
    destruct (String.eqb (file_path info) f1) eqn:E1, (String.eqb (file_path info) f2) eqn:E2;
      simpl; rewrite ?E1, ?E2; reflexivity.
  - rewrite !remove_node2_Right, (remove_map_comm f1 f2 m IH). reflexivity.
Qed.

Lemma remove_messages_comm f1 f2 m :
  remove_messages f1 (remove_messages f2 m) = remove_messages f2 (remove_messages f1 m).
Proof.
  apply remove_map_comm. apply Forall_forall. intros [k v] _. apply remove_node_comm.
Qed.

(** ** Removing a file that owns nothing *)

Lemma remove_map_absent fp m :
  Forall (fun kv => wf_node (snd kv) = true -> ~ In fp (node_files (snd kv)) ->
                    remove_node fp (snd kv) = Some (snd kv)) m ->
  wf_map m = true -> ~ In fp (map_files m) -> remove_messages fp m = m.
Proof.
  induction m as [|[k v] rest IH]; intros Hf Hw Hn; simpl; [reflexivity|].
  inversion Hf as [|x xs Hx Hrest]; subst. simpl in Hx, Hw, Hn.
  apply andb_prop in Hw as [H1 H2].
  rewrite Hx by (auto || (intros Hi; apply Hn; apply in_or_app; auto)).
  rewrite IH by (auto || (intros Hi; apply Hn; apply in_or_app; auto)). reflexivity.
Qed.

Lemma remove_node_absent fp n :
  wf_node n = true -> ~ In fp (node_files n) -> remove_node fp n = Some n.
Proof.
  induction n as [info|m IH] using Node_ind'; intros Hw Hn.
  - simpl in *. destruct (String.eqb (file_path info) fp) eqn:E; [|reflexivity].
    apply String.eqb_eq in E. exfalso. auto.
  - rewrite wf_node_Right in Hw. rewrite node_files_Right in Hn.
    apply andb_prop in Hw as [H1 H2].
    rewrite remove_node_Right, (remove_map_absent fp m IH H2 Hn).
    destruct m; [discriminate|reflexivity].
Qed.

Lemma remove_messages_absent fp m :
  wf_map m = true -> ~ In fp (map_files m) -> remove_messages fp m = m.
Proof.
  apply remove_map_absent. apply Forall_forall. intros [k v] _. apply remove_node_absent.
Qed.

Lemma filter_conflicts_absent fp cs :
  Forall (fun c => ~ In fp (c_files c)) cs ->
  filter (fun c => negb (existsb (String.eqb fp) (c_files c))) cs = cs.
Proof.
  induction cs as [|c rest IH]; intros Hf; simpl; [reflexivity|].
  inversion Hf; subst. rewrite existsb_eqb_false_iff by assumption. simpl. rewrite IH; auto.
Qed.

(** ** Walking a namespace path in the trie *)

(** The node at the path [parts] then [key], through branches only. *)
Fixpoint trie_lookup (parts : list string) (key : string) (m : MessageMap) : option Node :=
  match parts with
  | [] => alookup key m
  | part :: rest =>
      match alookup part m with
      | Some (Right sub) => trie_lookup rest key sub
      | _ => None
      end
  end.

(** The first leaf met on the way down [parts], with its segment. *)
Fixpoint leaf_on_path (parts : list string) (m : MessageMap) : option (string * MessageInfo) :=
  match parts with
  | [] => None
  | part :: rest =>
      match alookup part m with
      | Some (Left info) => Some (part, info)
      | Some (Right sub) => leaf_on_path rest sub
      | None => None
      end
  end.

Lemma trie_lookup_nil parts key : trie_lookup parts key [] = None.
Proof. destruct parts; reflexivity. Qed.

Lemma leaf_on_path_nil parts : leaf_on_path parts [] = None.
Proof. destruct parts; reflexivity. Qed.

Lemma add_parts_lookup ns key fp parts : forall m,
  leaf_on_path parts m = None ->
  trie_lookup parts key (fst (add_parts ns parts key fp m)) = Some (leaf_of fp)
  /\ snd (add_parts ns parts key fp m)
     = match trie_lookup parts key m with
       | Some (Left info) => Some (mkConflict ns key [file_path info; fp])
       | _ => None
       end.
Proof.
  induction parts as [|p ps IH]; intros m Hl; simpl in *.
  - split; [apply alookup_ainsert_eq|]. destruct (alookup key m) as [[]|]; reflexivity.
  - destruct (alookup p m) as [[info|sub]|] eqn:E; [discriminate| |].
    + destruct (IH sub Hl) as [H1 H2].
      destruct (add_parts ns ps key fp sub) as [sub' c]; simpl in *.
      rewrite alookup_ainsert_eq. auto.
    + destruct (IH [] (leaf_on_path_nil ps)) as [H1 H2].
      destruct (add_parts ns ps key fp []) as [sub' c]; simpl in *.
      rewrite alookup_ainsert_eq, H2, trie_lookup_nil. auto.
Qed.

Lemma add_parts_blocked ns key fp parts : forall m part info,
  leaf_on_path parts m = Some (part, info) ->
  add_parts ns parts key fp m = (m, Some (mkConflict ns part [file_path info; fp])).
Proof.
  induction parts as [|p ps IH]; intros m part info Hl; simpl in *; [discriminate|].
  destruct (alookup p m) as [[info'|sub]|] eqn:E; [inversion Hl; subst; reflexivity| |discriminate].
  rewrite (IH sub part info Hl), ainsert_same by exact E. reflexivity.
Qed.

(** ** [merge_by_namespace] *)

(** The loop body of [merge_by_namespace]. *)
Definition mbn_step (result : list (string * list string)) (tf : TranslationFunction)
    : list (string * list string) :=
  match alookup (namespace tf) result with
  | Some set => ainsert (namespace tf) (fold_left (fun s x => set_insert x s) (usages tf) set) result
  | None => ainsert (namespace tf) (usages tf) result
  end.

Lemma merge_by_namespace_fold v :
  merge_by_namespace v = fold_left mbn_step (map snd (translation_functions v)) [].
Proof. reflexivity. Qed.

Lemma in_set_insert x s k : In k (set_insert x s) <-> k = x \/ In k s.
Proof.
  unfold set_insert. destruct (existsb (String.eqb x) s) eqn:E.
  - apply existsb_exists in E as [y [Hy Hxy]]. apply String.eqb_eq in Hxy. subst y.
    split; [auto|]. intros [->|H]; auto.
  - rewrite in_app_iff. simpl. split; intros [H|H]; auto; destruct H as [H|[]]; auto.
Qed.

Lemma in_fold_set_insert us : forall s k,
  In k (fold_left (fun s x => set_insert x s) us s) <-> In k s \/ In k us.
Proof.
  induction us as [|x rest IH]; intros s k; simpl.
  - split; [auto|]. intros [H|[]]. exact H.
  - rewrite IH, in_set_insert. split.
    + intros [[H|H]|H]; auto.
    + intros [H|[H|H]]; auto.
Qed.

Lemma mbn_step_spec acc tf ns k :
  ((exists set, alookup ns (mbn_step acc tf) = Some set /\ In k set)
   <-> (exists set, alookup ns acc = Some set /\ In k set) \/ (namespace tf = ns /\ In k (usages tf)))
  /\ (alookup ns (mbn_step acc tf) <> None <-> alookup ns acc <> None \/ namespace tf = ns).
Proof.
  unfold mbn_step. destruct (string_dec ns (namespace tf)) as [->|Hne].
  - destruct (alookup (namespace tf) acc) as [set|] eqn:E; rewrite alookup_ainsert_eq.
    + split.
      * split.
        -- intros [s' [Hs Hk]]. inversion Hs; subst. apply in_fold_set_insert in Hk as [Hk|Hk]; eauto.
        -- intros [[s0 [Hs Hk]]|[_ Hk]]; eexists; (split; [reflexivity|]);
             apply in_fold_set_insert; [inversion Hs; subst|]; auto.
      * split; [intros _; left; discriminate|intros _; discriminate].
    + split.
      * split.
        -- intros [s' [Hs Hk]]. inversion Hs; subst. auto.
        -- intros [[s0 [Hs Hk]]|[_ Hk]]; [discriminate|eauto].
      * split; [intros _; auto|intros _; discriminate].
  - assert (Hl : forall w, alookup ns (ainsert (namespace tf) w acc) = alookup ns acc)
      by (intros w; apply alookup_ainsert_neq; exact Hne).
    destruct (alookup (namespace tf) acc); rewrite Hl; split; split; intros H; auto;
      destruct H as [H|H]; auto; exfalso; apply Hne; try destruct H as [H _]; congruence.
Qed.

Lemma mbn_fold_spec L : forall acc ns k,
  ((exists set, alookup ns (fold_left mbn_step L acc) = Some set /\ In k set)
   <-> (exists set, alookup ns acc = Some set /\ In k set)
       \/ (exists tf, In tf L /\ namespace tf = ns /\ In k (usages tf)))
  /\ (alookup ns (fold_left mbn_step L acc) <> None
      <-> alookup ns acc <> None \/ (exists tf, In tf L /\ namespace tf = ns)).
Proof.
  induction L as [|tf rest IH]; intros acc ns k; simpl.
  - split; split; auto; intros [H|[tf [[] _]]]; exact H.
  - destruct (IH (mbn_step acc tf) ns k) as [[I1 I2] [I3 I4]].
    destruct (mbn_step_spec acc tf ns k) as [[S1 S2] [S3 S4]].
    split; split.
    + intros H. destruct (I1 H) as [H'|[tf' [H1 [H2 H3]]]].
      * destruct (S1 H') as [H''|[H1 H2]]; [auto|right; exists tf; auto].
      * right. exists tf'. auto.
    + intros [H|[tf' [[<-|H1] [H2 H3]]]]; apply I2.
      * left. apply S2. auto.
      * left. apply S2. auto.
      * right. exists tf'. auto.
    + intros H. destruct (I3 H) as [H'|[tf' [H1 H2]]].
      * destruct (S3 H') as [H''|H1]; [auto|right; exists tf; auto].
      * right. exists tf'. auto.
    + intros [H|[tf' [[<-|H1] H2]]]; apply I4.
      * left. apply S4. auto.
      * left. apply S4. auto.
      * right. exists tf'. auto.
Qed.

(** ** Where the extracted strings come from *)

(** Every string literal of an expression or statement, in any position. *)
Fixpoint expr_literals (e : Expression) : list string :=
  match e with
  | Identifier _ => []
  | StringLiteral value => [value]
  | CallExpression callee arguments =>
      expr_literals callee
      ++ (fix go (l : list Expression) : list string :=
            match l with [] => [] | a :: rest => expr_literals a ++ go rest end) arguments
  | StaticMemberExpression object _ => expr_literals object
  | AwaitExpression argument => expr_literals argument
  | ObjectExpression properties =>
      (fix go (l : list (PropertyKey * Expression)) : list string :=
         match l with [] => [] | (_, e') :: rest => expr_literals e' ++ go rest end) properties
  | FunctionExpression _ body | ArrowFunctionExpression body =>
      (fix go (l : list Statement) : list string :=
         match l with [] => [] | s :: rest => stmt_literals s ++ go rest end) body
  | OtherExpression children =>
      (fix go (l : list Expression) : list string :=
         match l with [] => [] | a :: rest => expr_literals a ++ go rest end) children
  end
with stmt_literals (s : Statement) : list string :=
  match s with
  | VariableDeclaration declarations =>
      (fix go (l : list (BindingPatternKind * option Expression)) : list string :=
         match l with
         | [] => []
         | (_, Some e) :: rest => expr_literals e ++ go rest
         | (_, None) :: rest => go rest
         end) declarations
  | ExpressionStatement e => expr_literals e
  | FunctionDeclaration _ body | BlockStatement body =>
      (fix go (l : list Statement) : list string :=
         match l with [] => [] | s' :: rest => stmt_literals s' ++ go rest end) body
  | ReturnStatement (Some e) => expr_literals e
  | ReturnStatement None => []
  end.

Definition program_literals (program : list Statement) : list string :=
  flat_map stmt_literals program.

(** Every binding's namespace and usages are strings of [S]. *)
Definition lits_inv (S : list string) (v : TranslationFunctionVisitor) : Prop :=
  forall q tf, In (q, tf) (translation_functions v) -> In (namespace tf) S /\ incl (usages tf) S.

Lemma find_map_namespace_literal props ns :
  find_map namespace_property props = Some ns -> In ns (expr_literals (ObjectExpression props)).
Proof.
  induction props as [|[pk e] rest IH]; [discriminate|]. intros H.
  change (In ns (expr_literals e ++ expr_literals (ObjectExpression rest))).
  change (match namespace_property (pk, e) with
          | Some y => Some y
          | None => find_map namespace_property rest
          end = Some ns) in H.
  apply in_or_app. destruct (namespace_property (pk, e)) as [y|] eqn:Ep.
  - left. inversion H; subst y.
    destruct pk, e; simpl in Ep; try discriminate.
    destruct (String.eqb name "namespace"); inversion Ep; subst. simpl. auto.
  - right. exact (IH H).
Qed.

Lemma declarator_tfs v id init :
  translation_functions (visit_declarator v (id, init)) = translation_functions v
  \/ exists key ns e, init = Some e /\ In ns (expr_literals e)
       /\ translation_functions (visit_declarator v (id, init))
          = ainsert key (mkTranslationFunction ns []) (translation_functions v).
Proof.
  unfold visit_declarator.
  destruct init as [e|]; [|left; reflexivity].
  destruct e as [?|?|callee args|? ?|arg|?|? ?|?|?]; try (left; reflexivity).
  - destruct callee as [name|?|? ?|? ?|?|?|? ?|?|?]; try (left; reflexivity).
    simpl. destruct (_ && _); [left; reflexivity|].
    destruct args as [|[?|ns|? ?|? ?|?|?|? ?|?|?] rest]; try (left; reflexivity).
    destruct id as [d|]; [|left; reflexivity].
    right. eexists _, ns, _. split; [reflexivity|]. split; [simpl; auto|reflexivity].
  - destruct arg as [?|?|callee args|? ?|?|?|? ?|?|?]; try (left; reflexivity).
    destruct callee as [name|?|? ?|? ?|?|?|? ?|?|?]; try (left; reflexivity).
    simpl. destruct (_ && _); [left; reflexivity|].
    destruct args as [|[?|?|? ?|? ?|?|props|? ?|?|?] rest]; try (left; reflexivity).
    simpl. destruct (find_map namespace_property props) as [ns|] eqn:Hp; [|left; reflexivity].
    destruct id as [d|]; [|left; reflexivity].
    right. eexists _, ns, _. split; [reflexivity|]. split; [|reflexivity].
    simpl. apply in_or_app. left. apply find_map_namespace_literal. exact Hp.
Qed.

Lemma lits_inv_ainsert S v key tf tfs :
  lits_inv S v -> In (namespace tf) S -> incl (usages tf) S ->
  tfs = ainsert key tf (translation_functions v) ->
  forall q tf', In (q, tf') tfs -> In (namespace tf') S /\ incl (usages tf') S.
Proof.
  intros Hv Hn Hu -> q tf' Hin. apply in_ainsert in Hin as [H|H].
  - inversion H; subst. auto.
  - exact (Hv q tf' H).
Qed.

Lemma lits_inv_declarator S v id init :
  (forall e, init = Some e -> incl (expr_literals e) S) ->
  lits_inv S v -> lits_inv S (visit_declarator v (id, init)).
Proof.
  intros Hl Hv. destruct (declarator_tfs v id init) as [E|[key [ns [e [He [Hin E]]]]]];
    intros q tf Hq; rewrite E in Hq.
  - exact (Hv q tf Hq).
  - refine (lits_inv_ainsert S v key (mkTranslationFunction ns []) _ Hv _ _ eq_refl q tf Hq).
    + apply (Hl e He). exact Hin.
    + intros x [].
Qed.

Lemma lits_inv_variable_declaration S v decls :
  incl (stmt_literals (VariableDeclaration decls)) S ->
  lits_inv S v -> lits_inv S (visit_variable_declaration v decls).
Proof.
  unfold visit_variable_declaration. revert v.
  induction decls as [|[id init] rest IH]; intros v Hl Hv; simpl in Hl; cbn [fold_left];
    [exact Hv|].
  destruct init as [e|].
  - apply incl_app_inv in Hl as [H1 H2]. apply IH; [exact H2|].
    apply lits_inv_declarator; [|exact Hv]. intros e' He'. inversion He'; subst. exact H1.
  - apply IH; [exact Hl|]. apply lits_inv_declarator; [|exact Hv]. discriminate.
Qed.

Lemma record_usage_tfs v name args :
  translation_functions (record_usage v name args) = translation_functions v
  \/ exists key info s rest,
       alookup key (translation_functions v) = Some info /\ args = StringLiteral s :: rest
       /\ translation_functions (record_usage v name args)
          = ainsert key (mkTranslationFunction (namespace info) (set_insert s (usages info)))
              (translation_functions v).
Proof.
  unfold record_usage.
  destruct (alookup _ (translation_functions v)) as [info|] eqn:E; [|left; reflexivity].
  destruct args as [|[?|s|? ?|? ?|?|?|? ?|?|?] rest]; try (left; reflexivity).
  right. do 4 eexists. split; [exact E|]. split; reflexivity.
Qed.

Lemma lits_inv_call S v callee args :
  incl (expr_literals (CallExpression callee args)) S ->
  lits_inv S v -> lits_inv S (visit_call_expression v callee args).
Proof.
  intros Hl Hv.
  assert (Hr : forall name, lits_inv S (record_usage v name args)).
  { intros name. destruct (record_usage_tfs v name args) as [E|[key [info [s [rest [Hi [Ha E]]]]]]];
      intros q tf Hq; rewrite E in Hq; [exact (Hv q tf Hq)|].
    destruct (Hv _ _ (alookup_In _ _ _ Hi)) as [Hn Hu].
    refine (lits_inv_ainsert S v key
              (mkTranslationFunction (namespace info) (set_insert s (usages info)))
              _ Hv Hn _ eq_refl q tf Hq).
    intros x Hx. simpl in Hx. apply in_set_insert in Hx as [->|Hx]; [|exact (Hu x Hx)].
    apply Hl. subst args. simpl. apply in_or_app. right. simpl. left. reflexivity. }
  destruct callee as [name|?|? ?|obj ?|?|?|? ?|?|?]; try exact Hv; [apply Hr|].
  destruct obj; try exact Hv. apply Hr.
Qed.

Lemma visit_expression_lits S e : forall v,
  incl (expr_literals e) S -> lits_inv S v -> lits_inv S (visit_expression v e)
with visit_statement_lits S s : forall v,
  incl (stmt_literals s) S -> lits_inv S v -> lits_inv S (visit_statement v s).
Proof.
  - destruct e as [name|value|callee arguments|object property|argument|properties|id body|body|children];
      intros v Hl Hv.
    + exact Hv.
    + exact Hv.
    + apply lits_inv_call; assumption.
    + exact (visit_expression_lits S object v Hl Hv).
    + exact (visit_expression_lits S argument v Hl Hv).
    + simpl in *. revert v Hl Hv.
      induction properties as [|[pk e'] rest IH]; intros v Hl Hv; simpl in *; [exact Hv|].
      apply incl_app_inv in Hl as [H1 H2].
      apply IH; [exact H2|]. apply visit_expression_lits; assumption.
    + simpl in *.
      assert (Hv1 : lits_inv S (match id with Some name => enter_scope v name | None => v end))
        by (destruct id; exact Hv).
      revert Hv1. generalize (match id with Some name => enter_scope v name | None => v end).
      clear v Hv. intros v Hv.
      change (lits_inv S
        ((fix go v ss := match ss with
                         | [] => v
                         | s :: rest => go (visit_statement v s) rest
                         end) v body)).
      revert v Hl Hv.
      induction body as [|s rest IH]; intros v Hl Hv; simpl in *; [exact Hv|].
      apply incl_app_inv in Hl as [H1 H2].
      apply IH; [exact H2|]. apply visit_statement_lits; assumption.
    + simpl in *. revert v Hl Hv.
      induction body as [|s rest IH]; intros v Hl Hv; simpl in *; [exact Hv|].
      apply incl_app_inv in Hl as [H1 H2].
      apply IH; [exact H2|]. apply visit_statement_lits; assumption.
    + simpl in *. revert v Hl Hv.
      induction children as [|e' rest IH]; intros v Hl Hv; simpl in *; [exact Hv|].
      apply incl_app_inv in Hl as [H1 H2].
      apply IH; [exact H2|]. apply visit_expression_lits; assumption.
  - destruct s as [declarations|e|id body|[e|]|body]; intros v Hl Hv.
    + apply lits_inv_variable_declaration; assumption.
    + exact (visit_expression_lits S e v Hl Hv).
    + simpl in *.
      assert (Hv1 : lits_inv S (match id with Some name => enter_scope v name | None => v end))
        by (destruct id; exact Hv).
      revert Hv1. generalize (match id with Some name => enter_scope v name | None => v end).
      clear v Hv. intros v Hv.
      change (lits_inv S
        ((fix go v ss := match ss with
                         | [] => v
                         | s' :: rest => go (visit_statement v s') rest
                         end) v body)).
      revert v Hl Hv.
      induction body as [|s rest IH]; intros v Hl Hv; simpl in *; [exact Hv|].
      apply incl_app_inv in Hl as [H1 H2].
      apply IH; [exact H2|]. apply visit_statement_lits; assumption.
    + exact (visit_expression_lits S e v Hl Hv).
    + exact Hv.
    + simpl in *. revert v Hl Hv.
      induction body as [|s rest IH]; intros v Hl Hv; simpl in *; [exact Hv|].
      apply incl_app_inv in Hl as [H1 H2].
      apply IH; [exact H2|]. apply visit_statement_lits; assumption.
Qed.

Lemma visit_program_lits S program : forall v,
  incl (program_literals program) S -> lits_inv S v -> lits_inv S (visit_program v program).
Proof.
  unfold visit_program, program_literals.
  induction program as [|s rest IH]; intros v Hl Hv; simpl in *; [exact Hv|].
  apply incl_app_inv in Hl as [H1 H2].
  apply IH; [exact H2|]. apply visit_statement_lits; assumption.
Qed.

Lemma merge_by_namespace_lits S v :
  lits_inv S v -> forall ns keys, In (ns, keys) (merge_by_namespace v) -> In ns S /\ incl keys S.
Proof.
  intros Hv. rewrite merge_by_namespace_fold.
  assert (Hgen : forall L acc,
    (forall tf, In tf L -> In (namespace tf) S /\ incl (usages tf) S) ->
    (forall q w, In (q, w) acc -> In q S /\ incl w S) ->
    forall q w, In (q, w) (fold_left mbn_step L acc) -> In q S /\ incl w S).
  { induction L as [|tf rest IH]; intros acc HL Hacc; simpl; [exact Hacc|].
    apply IH; [intros tf' H; apply HL; simpl; auto|].
    destruct (HL tf (or_introl eq_refl)) as [Hn Hu].
    intros q w Hq. unfold mbn_step in Hq.
    destruct (alookup (namespace tf) acc) as [set|] eqn:E;
      apply in_ainsert in Hq as [Hq|Hq]; try exact (Hacc q w Hq); inversion Hq; subst; split; auto.
    intros x Hx. apply in_fold_set_insert in Hx as [Hx|Hx]; [|exact (Hu x Hx)].
    exact (proj2 (Hacc _ _ (alookup_In _ _ _ E)) x Hx). }
  apply Hgen; [|intros q w []].
  intros tf Htf. apply in_map_iff in Htf as [[q tf'] [Heq Hin]]. simpl in Heq. subst tf'.
  exact (Hv q tf Hin).
Qed.

(** ** Functions that all have a name keep the scope stack balanced *)

(** Every function expression and declaration in the tree has a name. *)
Fixpoint named_expr (e : Expression) : bool :=
  match e with
  | Identifier _ | StringLiteral _ => true
  | CallExpression callee arguments =>
      named_expr callee
      && (fix go (l : list Expression) : bool :=
            match l with [] => true | a :: rest => named_expr a && go rest end) arguments
  | StaticMemberExpression object _ => named_expr object
  | AwaitExpression argument => named_expr argument
  | ObjectExpression properties =>
      (fix go (l : list (PropertyKey * Expression)) : bool :=
         match l with [] => true | (_, e') :: rest => named_expr e' && go rest end) properties
  | FunctionExpression None _ => false
  | FunctionExpression (Some _) body | ArrowFunctionExpression body =>
      (fix go (l : list Statement) : bool :=
         match l with [] => true | s :: rest => named_stmt s && go rest end) body
  | OtherExpression children =>
      (fix go (l : list Expression) : bool :=
         match l with [] => true | a :: rest => named_expr a && go rest end) children
  end
with named_stmt (s : Statement) : bool :=
  match s with
  | VariableDeclaration declarations =>
      (fix go (l : list (BindingPatternKind * option Expression)) : bool :=
         match l with
         | [] => true
         | (_, Some e) :: rest => named_expr e && go rest
         | (_, None) :: rest => go rest
         end) declarations
  | ExpressionStatement e => named_expr e
  | FunctionDeclaration None _ => false
  | FunctionDeclaration (Some _) body | BlockStatement body =>
      (fix go (l : list Statement) : bool :=
         match l with [] => true | s' :: rest => named_stmt s' && go rest end) body
  | ReturnStatement (Some e) => named_expr e
  | ReturnStatement None => true
  end.

Lemma declarator_scope v d : current_scope (visit_declarator v d) = current_scope v.
Proof.
  destruct d as [id init]. unfold visit_declarator.
  repeat match goal with
         | |- context [match ?x with _ => _ end] => destruct x
         end; reflexivity.
Qed.

Lemma variable_declaration_scope v decls :
  current_scope (visit_variable_declaration v decls) = current_scope v.
Proof.
  unfold visit_variable_declaration. revert v.
  induction decls as [|d rest IH]; intros v; simpl; [reflexivity|].
  rewrite IH. apply declarator_scope.
Qed.

Lemma call_scope v callee args :
  current_scope (visit_call_expression v callee args) = current_scope v.
Proof.
  assert (Hs : forall name, current_scope (record_usage v name args) = current_scope v).
  { intros name. unfold record_usage.
    destruct (alookup _ _); [|reflexivity]. destruct args as [|[] rest]; reflexivity. }
  destruct callee; try reflexivity; [apply Hs|].
  destruct callee; try reflexivity. apply Hs.
Qed.

Lemma visit_expression_scope e : forall v,
  named_expr e = true -> current_scope (visit_expression v e) = current_scope v
with visit_statement_scope s : forall v,
  named_stmt s = true -> current_scope (visit_statement v s) = current_scope v.
Proof.
  - destruct e as [name|value|callee arguments|object property|argument|properties|[name|] body|body|children];
      intros v Hn.
    + reflexivity.
    + reflexivity.
    + apply call_scope.
    + exact (visit_expression_scope object v Hn).
    + exact (visit_expression_scope argument v Hn).
    + simpl in *. revert v.
      induction properties as [|[pk e'] rest IH]; intros v; simpl in *; [reflexivity|].
      apply andb_prop in Hn as [H1 H2].
      rewrite (IH H2). apply visit_expression_scope. exact H1.
    + simpl in *.
      change (current_scope (exit_scope
        ((fix go v ss := match ss with
                         | [] => v
                         | s :: rest => go (visit_statement v s) rest
                         end) (enter_scope v name) body)) = current_scope v).
      assert (Hb : forall v',
        current_scope ((fix go v ss := match ss with
                                       | [] => v
                                       | s :: rest => go (visit_statement v s) rest
                                       end) v' body) = current_scope v').
      { induction body as [|s rest IH]; intros v'; simpl in *; [reflexivity|].
        apply andb_prop in Hn as [H1 H2].
        rewrite (IH H2). apply visit_statement_scope. exact H1. }
      unfold exit_scope at 1. simpl. rewrite Hb. simpl. apply removelast_last.
    + discriminate.
    + simpl in *. revert v.
      induction body as [|s rest IH]; intros v; simpl in *; [reflexivity|].
      apply andb_prop in Hn as [H1 H2].
      rewrite (IH H2). apply visit_statement_scope. exact H1.
    + simpl in *. revert v.
      induction children as [|e' rest IH]; intros v; simpl in *; [reflexivity|].
      apply andb_prop in Hn as [H1 H2].
      rewrite (IH H2). apply visit_expression_scope. exact H1.
  - destruct s as [declarations|e|[name|] body|[e|]|body]; intros v Hn.
    + apply variable_declaration_scope.
    + exact (visit_expression_scope e v Hn).
    + simpl in *.
      change (current_scope (exit_scope
        ((fix go v ss := match ss with
                         | [] => v
                         | s' :: rest => go (visit_statement v s') rest
                         end) (enter_scope v name) body)) = current_scope v).
      assert (Hb : forall v',
        current_scope ((fix go v ss := match ss with
                                       | [] => v
                                       | s' :: rest => go (visit_statement v s') rest
                                       end) v' body) = current_scope v').
      { induction body as [|s rest IH]; intros v'; simpl in *; [reflexivity|].
        apply andb_prop in Hn as [H1 H2].
        rewrite (IH H2). apply visit_statement_scope. exact H1. }
      unfold exit_scope at 1. simpl. rewrite Hb. simpl. apply removelast_last.
    + discriminate.
    + exact (visit_expression_scope e v Hn).
    + reflexivity.
    + simpl in *. revert v.
      induction body as [|s rest IH]; intros v; simpl in *; [reflexivity|].
      apply andb_prop in Hn as [H1 H2].
      rewrite (IH H2). apply visit_statement_scope. exact H1.
Qed.

(** ** Scope names *)

Lemma string_app_assoc (a b c : string) : ((a ++ b) ++ c)%string = (a ++ (b ++ c))%string.
Proof. induction a as [|ch a IH]; simpl; [reflexivity|]. rewrite IH. reflexivity. Qed.

Lemma concat_dot_snoc l x :
  join_dot (l ++ [x]) = match l with [] => x | _ => (join_dot l ++ "." ++ x)%string end.
Proof.
  unfold join_dot. induction l as [|a rest IH]; [reflexivity|].
  destruct rest as [|b rest']; [reflexivity|].
  rewrite <- app_comm_cons.
  transitivity (String.append a (String.append "." (String.concat "." ((b :: rest') ++ [x])))).
  { destruct ((b :: rest') ++ [x]) eqn:E; [destruct rest'; discriminate|reflexivity]. }
  rewrite IH.
  transitivity (String.append (String.append a (String.append "." (String.concat "." (b :: rest')))) (String.append "." x)).
  { rewrite !string_app_assoc. reflexivity. }
  reflexivity.
Qed.

Lemma forall_filter_conflicts fp cs :
  Forall (fun c => ~ In fp (c_files c))
    (filter (fun c => negb (existsb (String.eqb fp) (c_files c))) cs).
Proof.
  apply Forall_forall. intros c Hc. apply filter_In in Hc as [_ Hc].
  apply negb_true_iff in Hc. exact (existsb_eqb_false _ _ Hc).
Qed.

Lemma visit_program_scope program : forall v,
  forallb named_stmt program = true -> current_scope (visit_program v program) = current_scope v.
Proof.
  unfold visit_program. induction program as [|s rest IH]; intros v Hn; [reflexivity|].
  cbn [forallb] in Hn. apply andb_prop in Hn as [H1 H2]. cbn [fold_left].
  rewrite (IH _ H2). exact (visit_statement_scope s v H1).
Qed.


(** ** Further properties *)


(** X2: for a namespace and a key without dots, inserted along any sequence
    of calls from a new handler with catalog [src], the merged catalog holds
    at [ns.k] the catalog's value at [ns.k], or the placeholder string
    ["ns.k"] when the catalog has none. *)
Theorem X_merge_single_segment src ops ns k info sub :
  no_dot ns = true -> no_dot k = true ->
  alookup ns (extracted_messages (run_ops (new_handler src) ops)) = Some (Right sub) ->
  alookup k sub = Some (Left info) ->
  json_get_path [ns; k] (merge_messages (run_ops (new_handler src) ops))
  = Some (match json_get_path [ns; k] src with
          | Some v => v
          | None => VString (ns ++ "." ++ k)
          end).
Proof.
  intros Hns Hk Hsub Hinfo. unfold merge_messages.
  pose proof (reachable_uniq src ops) as Hu.
  rewrite run_ops_source. simpl source_messages.
  rewrite merge_recursive_nil by exact Hu.
  cbn [json_get_path]. rewrite alookup_merged_map, Hsub. simpl entry_value.
  pose proof (uniq_map_lookup _ _ _ Hu Hsub) as Hs. rewrite uniq_node_Right in Hs.
  rewrite merge_recursive_nil by exact Hs. rewrite alookup_merged_map, Hinfo.
  simpl entry_value. unfold lookup_in_source.
  rewrite split_dot_dot by exact Hns. rewrite split_dot_no_dot by exact Hk.
  simpl lookup_parts. destruct (alookup ns src) as [[]|]; simpl; try reflexivity;
    destruct (alookup k fields); reflexivity.
Qed.

(** X3: [remove_messages_for_file h fp] removes exactly the leaves owned by
    [fp] (the owners of the remaining leaves are the old ones, in order,
    without [fp]) and keeps only the conflict records that do not name [fp]. *)
Theorem X_remove_file_leaves h fp :
  map_files (extracted_messages (remove_messages_for_file h fp))
  = filter (fun f => negb (String.eqb f fp)) (map_files (extracted_messages h))
  /\ Forall (fun c => ~ In fp (c_files c)) (conflicts (remove_messages_for_file h fp))
  /\ incl (conflicts (remove_messages_for_file h fp)) (conflicts h).
Proof.
  split; [apply remove_messages_files|]. split; [apply forall_filter_conflicts|].
  intros c Hc. apply filter_In in Hc as [Hc _]. exact Hc.
Qed.

(** X4: removing the messages of a file a second time changes nothing. *)
Theorem X_remove_file_idempotent h fp :
  remove_messages_for_file (remove_messages_for_file h fp) fp = remove_messages_for_file h fp.
Proof.
  unfold remove_messages_for_file. simpl. rewrite remove_messages_idem, filter_idem. reflexivity.
Qed.

(** X5: removing the messages of two files gives the same handler in
    either order. *)
Theorem X_remove_files_commute h f1 f2 :
  remove_messages_for_file (remove_messages_for_file h f1) f2
  = remove_messages_for_file (remove_messages_for_file h f2) f1.
Proof.
  unfold remove_messages_for_file. simpl.
  rewrite remove_messages_comm, filter_comm. reflexivity.
Qed.

(** X6: along any sequence of calls from a new handler, removing a file
    that owns no leaf and is named in no conflict record leaves the handler
    unchanged. *)
Theorem X_remove_absent_file src ops fp :
  ~ In fp (map_files (extracted_messages (run_ops (new_handler src) ops))) ->
  Forall (fun c => ~ In fp (c_files c)) (conflicts (run_ops (new_handler src) ops)) ->
  remove_messages_for_file (run_ops (new_handler src) ops) fp = run_ops (new_handler src) ops.
Proof.
  intros Hn Hc. pose proof (run_ops_wf ops (new_handler src) eq_refl) as Hw.
  destruct (run_ops (new_handler src) ops) as [s m cs]. simpl in *.
  unfold remove_messages_for_file. simpl.
  rewrite (remove_messages_absent fp m Hw Hn), (filter_conflicts_absent fp cs Hc). reflexivity.
Qed.

(** X7: when no leaf lies on the path of the namespace's segments,
    [add_extracted_message h ns key fp] puts a leaf of [fp] at the path
    followed by [key], keeps the catalog, and appends one conflict record
    exactly when a leaf was already at that place (naming its file, then
    [fp]). *)
Theorem X_add_message_lookup h ns key fp :
  leaf_on_path (split_dot ns) (extracted_messages h) = None ->
  trie_lookup (split_dot ns) key (extracted_messages (add_extracted_message h ns key fp))
    = Some (Left (mkMessageInfo "" fp))
  /\ source_messages (add_extracted_message h ns key fp) = source_messages h
  /\ conflicts (add_extracted_message h ns key fp)
     = conflicts h ++ match trie_lookup (split_dot ns) key (extracted_messages h) with
                      | Some (Left info) => [mkConflict ns key [file_path info; fp]]
                      | _ => []
                      end.
Proof.
  intros Hl. destruct (add_extracted_message_fields h ns key fp) as [Hs [He Hc]].
  destruct (add_parts_lookup ns key fp (split_dot ns) (extracted_messages h) Hl) as [H1 H2].
  split; [rewrite He; exact H1|]. split; [exact Hs|].
  rewrite Hc, H2. destruct (trie_lookup (split_dot ns) key (extracted_messages h)) as [[]|]; reflexivity.
Qed.

(** X8: when a leaf lies at segment [part] of the namespace's path,
    [add_extracted_message] leaves the trie and the catalog as they are and
    appends the conflict record [{ns, part, [file of the leaf, fp]}]. *)
Theorem X_add_message_blocked h ns key fp part info :
  leaf_on_path (split_dot ns) (extracted_messages h) = Some (part, info) ->
  add_extracted_message h ns key fp
  = mkHandler (source_messages h) (extracted_messages h)
      (conflicts h ++ [mkConflict ns part [file_path info; fp]]).
Proof.
  intros Hl. unfold add_extracted_message.
  rewrite (add_parts_blocked ns key fp (split_dot ns) (extracted_messages h) part info Hl).
  reflexivity.
Qed.

(** X9: [merge_by_namespace] lists a namespace exactly when some binding
    has it, and its key set is the union of the usages of the bindings with
    that namespace. *)
Theorem X_merge_by_namespace_union v ns k :
  ((exists keys, alookup ns (merge_by_namespace v) = Some keys /\ In k keys)
   <-> exists q tf, In (q, tf) (translation_functions v) /\ namespace tf = ns /\ In k (usages tf))
  /\ (alookup ns (merge_by_namespace v) <> None
      <-> exists q tf, In (q, tf) (translation_functions v) /\ namespace tf = ns).
Proof.
  rewrite merge_by_namespace_fold.
  destruct (mbn_fold_spec (map snd (translation_functions v)) [] ns k) as [H1 H2].
  split.
  - rewrite H1. split.
    + intros [[set [Hs _]]|[tf [Htf [Hn Hk]]]]; [discriminate|].
      apply in_map_iff in Htf as [[q tf'] [Heq Hin]]. simpl in Heq. subst tf'.
      exists q, tf. auto.
    + intros [q [tf [Hin [Hn Hk]]]]. right. exists tf.
      split; [apply in_map_iff; exists (q, tf); auto|auto].
  - rewrite H2. split.
    + intros [Hc|[tf [Htf Hn]]]; [exfalso; apply Hc; reflexivity|].
      apply in_map_iff in Htf as [[q tf'] [Heq Hin]]. simpl in Heq. subst tf'.
      exists q, tf. auto.
    + intros [q [tf [Hin Hn]]]. right. exists tf.
      split; [apply in_map_iff; exists (q, tf); auto|auto].
Qed.

(** X10: every namespace and every key that [extract_translations] returns
    for a parsed file is the value of a string literal of the program. *)
Theorem X_extraction_from_literals program errors r :
  extract_translations (Parsed program errors) = Ok r ->
  forall ns keys, In (ns, keys) r ->
  In ns (program_literals program) /\ incl keys (program_literals program).
Proof.
  intros Hr. simpl in Hr. inversion Hr as [Hr']. subst r. clear Hr.
  apply merge_by_namespace_lits.
  apply visit_program_lits; [apply incl_refl|].
  intros q tf [].
Qed.

(** X11: when every function of a program has a name, visiting the program
    leaves the scope stack as it found it. *)
Theorem X_named_functions_keep_scope program v :
  forallb named_stmt program = true -> current_scope (visit_program v program) = current_scope v.
Proof. apply visit_program_scope. Qed.


(** X13: leaving a scope just entered gives back the visitor, and the
    entered scope's dotted name is the old one followed by the new segment. *)
Theorem X_enter_exit_scope v name :
  exit_scope (enter_scope v name) = v
  /\ current_scope_name (enter_scope v name)
     = match current_scope v with
       | [] => name
       | _ => (current_scope_name v ++ "." ++ name)%string
       end.
Proof.
  destruct v as [tfs sc ws]. unfold exit_scope, enter_scope, current_scope_name. simpl.
  rewrite removelast_last. split; [reflexivity|]. apply concat_dot_snoc.
Qed.

(** ** Witnesses *)

Lemma X_merge_single_segment_witness :
  json_get_path ["ns"; "k"]
    (merge_messages (run_ops (new_handler [("ns", VObject [("k", VString "v")])])
                      [AddMessage "ns" "k" "f"]))
  = Some (VString "v").
Proof.
  exact (X_merge_single_segment [("ns", VObject [("k", VString "v")])] [AddMessage "ns" "k" "f"]
           "ns" "k" (mkMessageInfo "" "f") [("k", Left (mkMessageInfo "" "f"))]
           eq_refl eq_refl eq_refl eq_refl).
Defined.

Lemma X_remove_absent_file_witness :
  remove_messages_for_file (run_ops (new_handler []) [AddMessage "ns" "k" "a.tsx"]) "b.tsx"
  = run_ops (new_handler []) [AddMessage "ns" "k" "a.tsx"].
Proof.
  apply X_remove_absent_file.
  - simpl. intros [H|[]]. discriminate.
  - simpl. constructor.
Defined.

Lemma X_add_message_lookup_witness :
  trie_lookup ["a"; "b"] "k" (extracted_messages (add_extracted_message (new_handler []) "a.b" "k" "f"))
    = Some (Left (mkMessageInfo "" "f")).
Proof.
  exact (proj1 (X_add_message_lookup (new_handler []) "a.b" "k" "f" eq_refl)).
Defined.

Lemma X_add_message_blocked_witness :
  let h := add_extracted_message (new_handler []) "a" "b" "f1" in
  add_extracted_message h "a.b" "k" "f2"
  = mkHandler [] (extracted_messages h) [mkConflict "a.b" "b" ["f1"; "f2"]].
Proof.
  exact (X_add_message_blocked (add_extracted_message (new_handler []) "a" "b" "f1")
           "a.b" "k" "f2" "b" (mkMessageInfo "" "f1") eq_refl).
Defined.

Lemma X_extraction_from_literals_witness :
  In "TestNS" (program_literals (component "Test" "TestNS" "hello"))
  /\ incl ["hello"] (program_literals (component "Test" "TestNS" "hello")).
Proof.
  apply (X_extraction_from_literals (component "Test" "TestNS" "hello") [] [("TestNS", ["hello"])]).
  - reflexivity.
  - simpl. left. reflexivity.
Defined.

Lemma X_named_functions_keep_scope_witness :
  current_scope (visit_program new_visitor outer_inner) = [].
Proof. apply X_named_functions_keep_scope. reflexivity. Defined.

